(** * ShaderTool: the GLSL interface scanner, the std140/std430 layout
    calculator and the binding generator of src/tools/shadertool/ShaderTool.cpp *)

From Stdlib Require Import String Ascii List ZArith Bool Lia.
Import ListNotations.
Open Scope string_scope.
Open Scope Z_scope.

(** ** Type catalog *)

(** [ShaderTool::Variable::Type], in the order of the rows of [cTypes]. *)
Inductive VarType :=
| DOUBLE | FLOAT | UNSIGNED_INT | BOOL | INT
| BVEC2 | BVEC3 | BVEC4 | DVEC2 | DVEC3 | DVEC4
| UVEC2 | UVEC3 | UVEC4 | IVEC2 | IVEC3 | IVEC4
| VEC2 | VEC3 | VEC4
| MAT2 | MAT3 | MAT4 | MAT3X4 | MAT4X3
| SAMPLER1D | SAMPLER2D | SAMPLER2DARRAY | SAMPLER2DARRAYSHADOW
| SAMPLER3D | SAMPLERCUBEMAP | SAMPLER1DSHADOW | SAMPLER2DSHADOW.

Definition VarType_eqb (a b : VarType) : bool :=
  match a, b with
  | DOUBLE, DOUBLE | FLOAT, FLOAT | UNSIGNED_INT, UNSIGNED_INT
  | BOOL, BOOL | INT, INT
  | BVEC2, BVEC2 | BVEC3, BVEC3 | BVEC4, BVEC4
  | DVEC2, DVEC2 | DVEC3, DVEC3 | DVEC4, DVEC4
  | UVEC2, UVEC2 | UVEC3, UVEC3 | UVEC4, UVEC4
  | IVEC2, IVEC2 | IVEC3, IVEC3 | IVEC4, IVEC4
  | VEC2, VEC2 | VEC3, VEC3 | VEC4, VEC4
  | MAT2, MAT2 | MAT3, MAT3 | MAT4, MAT4 | MAT3X4, MAT3X4 | MAT4X3, MAT4X3
  | SAMPLER1D, SAMPLER1D | SAMPLER2D, SAMPLER2D
  | SAMPLER2DARRAY, SAMPLER2DARRAY
  | SAMPLER2DARRAYSHADOW, SAMPLER2DARRAYSHADOW
  | SAMPLER3D, SAMPLER3D | SAMPLERCUBEMAP, SAMPLERCUBEMAP
  | SAMPLER1DSHADOW, SAMPLER1DSHADOW | SAMPLER2DSHADOW, SAMPLER2DSHADOW => true
  | _, _ => false
  end.

Infix "==t" := VarType_eqb (at level 70).

Inductive PassBy := Value | Reference | Pointer.

(** [ShaderTool::Types]: one row of the catalog. *)
Record Types := mkTypes {
  type : VarType;
  components : Z;
  ctype : string;
  passBy : PassBy;
  glsltype : string
}.

(** [ShaderTool::cTypes], row by row. *)
Definition cTypes : list Types := [
  mkTypes DOUBLE 1 "double" Value "double";
  mkTypes FLOAT 1 "float" Value "float";
  mkTypes UNSIGNED_INT 1 "uint32_t" Value "uint";
  mkTypes BOOL 1 "bool" Value "bool";
  mkTypes INT 1 "int32_t" Value "int";
  mkTypes BVEC2 2 "glm::bvec2" Reference "bvec2";
  mkTypes BVEC3 3 "glm::bvec3" Reference "bvec3";
  mkTypes BVEC4 4 "glm::bvec4" Reference "bvec4";
  mkTypes DVEC2 2 "glm::dvec2" Reference "dvec2";
  mkTypes DVEC3 3 "glm::dvec3" Reference "dvec3";
  mkTypes DVEC4 4 "glm::dvec4" Reference "dvec4";
  mkTypes UVEC2 2 "glm::uvec2" Reference "uvec2";
  mkTypes UVEC3 3 "glm::uvec3" Reference "uvec3";
  mkTypes UVEC4 4 "glm::uvec4" Reference "uvec4";
  mkTypes IVEC2 2 "glm::ivec2" Reference "ivec2";
  mkTypes IVEC3 3 "glm::ivec3" Reference "ivec3";
  mkTypes IVEC4 4 "glm::ivec4" Reference "ivec4";
  mkTypes VEC2 2 "glm::vec2" Reference "vec2";
  mkTypes VEC3 3 "glm::vec3" Reference "vec3";
  mkTypes VEC4 4 "glm::vec4" Reference "vec4";
  mkTypes MAT2 1 "glm::mat2" Reference "mat2";
  mkTypes MAT3 1 "glm::mat3" Reference "mat3";
  mkTypes MAT4 1 "glm::mat4" Reference "mat4";
  mkTypes MAT3X4 1 "glm::mat3x4" Reference "mat3x4";
  mkTypes MAT4X3 1 "glm::mat4x3" Reference "mat4x3";
  mkTypes SAMPLER1D 1 "video::TextureUnit" Value "sampler1D";
  mkTypes SAMPLER2D 1 "video::TextureUnit" Value "sampler2D";
  mkTypes SAMPLER2DARRAY 1 "video::TextureUnit" Value "sampler2DArray";
  mkTypes SAMPLER2DARRAYSHADOW 1 "video::TextureUnit" Value "sampler2DArrayShadow";
  mkTypes SAMPLER3D 1 "video::TextureUnit" Value "sampler3D";
  mkTypes SAMPLERCUBEMAP 1 "video::TextureUnit" Value "samplerCube";
  mkTypes SAMPLER1DSHADOW 1 "video::TextureUnit" Value "sampler1DShadow";
  mkTypes SAMPLER2DSHADOW 1 "video::TextureUnit" Value "sampler2DShadow"
].

Definition type_index (t : VarType) : nat :=
  match t with
  | DOUBLE => 0 | FLOAT => 1 | UNSIGNED_INT => 2 | BOOL => 3 | INT => 4
  | BVEC2 => 5 | BVEC3 => 6 | BVEC4 => 7 | DVEC2 => 8 | DVEC3 => 9
  | DVEC4 => 10 | UVEC2 => 11 | UVEC3 => 12 | UVEC4 => 13 | IVEC2 => 14
  | IVEC3 => 15 | IVEC4 => 16 | VEC2 => 17 | VEC3 => 18 | VEC4 => 19
  | MAT2 => 20 | MAT3 => 21 | MAT4 => 22 | MAT3X4 => 23 | MAT4X3 => 24
  | SAMPLER1D => 25 | SAMPLER2D => 26 | SAMPLER2DARRAY => 27
  | SAMPLER2DARRAYSHADOW => 28 | SAMPLER3D => 29 | SAMPLERCUBEMAP => 30
  | SAMPLER1DSHADOW => 31 | SAMPLER2DSHADOW => 32
  end.

(** [cTypes[v.type]]: the table is indexed by the enum value. *)
Definition cType_of (t : VarType) : Types :=
  nth (type_index t) cTypes (mkTypes FLOAT 1 "float" Value "float").

(** [ShaderTool::getComponents] *)
Definition getComponents (t : VarType) : Z := components (cType_of t).

(** [ShaderTool::Variable] *)
Record ShaderVariable := mkVariable {
  vtype : VarType;
  vname : string;
  arraySize : Z
}.

(** ** Machine integers *)

(** [int] arithmetic wraps modulo 2^32 (signed overflow, as the compiled
    code behaves); the conversion to [size_t] is modulo 2^64. *)
Definition int32 (z : Z) : Z :=
  let m := z mod 2 ^ 32 in if 2 ^ 31 <=? m then m - 2 ^ 32 else m.

Definition to_size_t (z : Z) : Z := z mod 2 ^ 64.

(** ** Memory layout calculator *)

(** [USE_ALIGN_AS] as defined in ShaderTool.cpp. *)
Definition USE_ALIGN_AS : Z := 1.

(** [ShaderTool::std140Align] *)
Definition std140Align (v : ShaderVariable) : string :=
  if 0 <? USE_ALIGN_AS then
    let t := type (cType_of (vtype v)) in
    if (t ==t VEC2) || (t ==t VEC3) || (t ==t VEC4)
       || (t ==t DVEC2) || (t ==t DVEC3) || (t ==t DVEC4)
       || (t ==t IVEC2) || (t ==t IVEC3) || (t ==t IVEC4)
       || (t ==t BVEC2) || (t ==t BVEC3) || (t ==t BVEC4)
    then "alignas(16) "
    else if (t ==t FLOAT) || (t ==t DOUBLE) then "alignas(4) "
    else ""
  else "".

(** Decimal rendering of an integer, as [std::to_string] and
    [operator<<] print it. *)
Fixpoint digits_of (fuel : nat) (n : Z) (acc : string) : string :=
  match fuel with
  | O => acc
  | S f =>
      let d := Z.to_nat (n mod 10) in
      let acc' := String (ascii_of_nat (48 + d)) acc in
      if n <? 10 then acc' else digits_of f (n / 10) acc'
  end.

Definition Z_to_string (z : Z) : string :=
  if z <? 0 then "-" ++ digits_of 64 (- z) ""
  else digits_of 64 z "".

Definition TAB : string := String (ascii_of_nat 9) "".
Definition NL : string := String (ascii_of_nat 10) "".

(** [ShaderTool::std140Padding]: the [int& padding] counter is threaded
    through and returned. *)
Definition std140Padding (v : ShaderVariable) (padding : Z) : string * Z :=
  if USE_ALIGN_AS =? 0 then
    let t := type (cType_of (vtype v)) in
    if (t ==t VEC3) || (t ==t DVEC3) || (t ==t IVEC3) || (t ==t BVEC3)
    then (TAB ++ TAB ++ "float _padding" ++ Z_to_string padding ++ ";" ++ NL, padding + 1)
    else ("", padding)
  else ("", padding).

(** [ShaderTool::std140Size] *)
Definition std140Size (v : ShaderVariable) : Z :=
  let cType := cType_of (vtype v) in
  let t := type cType in
  let components0 := components cType in
  let bytes := if (t ==t DVEC2) || (t ==t DVEC3) || (t ==t DVEC4) || (t ==t DOUBLE)
               then 8 else 4 in
  let components1 :=
    if (t ==t VEC2) || (t ==t DVEC2) || (t ==t IVEC2) || (t ==t BVEC2)
    then 2 else components0 in
  let components2 :=
    if (t ==t VEC3) || (t ==t DVEC3) || (t ==t IVEC3) || (t ==t BVEC3)
    then 4 else components1 in
  let components3 :=
    if t ==t MAT2 then 4
    else if t ==t MAT3 then 9
    else if t ==t MAT4 then 16
    else if t ==t MAT3X4 then 16
    else if t ==t MAT4X3 then 16
    else components2 in
  if 0 <? arraySize v
  then to_size_t (int32 (int32 (components3 * bytes) * arraySize v))
  else to_size_t (int32 (components3 * bytes)).

(** [ShaderTool::std430Align], [std430Size], [std430Padding] *)
Definition std430Align (v : ShaderVariable) : string := std140Align v.
Definition std430Size (v : ShaderVariable) : Z := std140Size v.
Definition std430Padding (v : ShaderVariable) (padding : Z) : string * Z :=
  std140Padding v padding.

(** [ShaderTool::BlockLayout] *)
Inductive BlockLayout := unknown | std140 | std430.

(** [ShaderTool::typeAlign], [typeSize], [typePadding]: [default] shares
    the [std140] branch. *)
Definition typeAlign (bl : BlockLayout) (v : ShaderVariable) : string :=
  match bl with
  | std430 => std430Align v
  | _ => std140Align v
  end.

Definition typeSize (bl : BlockLayout) (v : ShaderVariable) : Z :=
  match bl with
  | std430 => std430Size v
  | _ => std140Size v
  end.

Definition typePadding (bl : BlockLayout) (v : ShaderVariable) (padding : Z) : string * Z :=
  match bl with
  | std430 => std430Padding v padding
  | _ => std140Padding v padding
  end.

(** ** Layout qualifiers *)

(** [ShaderTool::PrimitiveType] *)
Inductive PrimitiveType :=
| PrimNone | points | lines | lines_adjacency | triangles
| triangles_adjacency | line_strip | triangle_strip.

(** [ShaderTool::PrimitiveTypeStr], indexed like [PrimitiveType];
    [None] stands for the [nullptr] row. *)
Definition PrimitiveTypeStr : list (option string * PrimitiveType) := [
  (None, PrimNone);
  (Some "points", points);
  (Some "lines", lines);
  (Some "lines_adjacency", lines_adjacency);
  (Some "triangles", triangles);
  (Some "triangles_adjacency", triangles_adjacency);
  (Some "line_strip", line_strip);
  (Some "triangle_strip", triangle_strip)
].

(** [ShaderTool::layoutPrimitiveType] *)
Fixpoint layoutPrimitiveType_from (rows : list (option string * PrimitiveType))
    (token : string) : PrimitiveType :=
  match rows with
  | [] => PrimNone
  | (None, _) :: rest => layoutPrimitiveType_from rest token
  | (Some s, p) :: rest =>
      if String.eqb token s then p else layoutPrimitiveType_from rest token
  end.

Definition layoutPrimitiveType (token : string) : PrimitiveType :=
  layoutPrimitiveType_from PrimitiveTypeStr token.

(** [ShaderTool::Layout]; the field [components] is renamed
    [layoutComponents] (the name is taken by the catalog row). *)
Record Layout := mkLayout {
  blockLayout : BlockLayout;
  location : Z;
  offset : Z;
  layoutComponents : Z;
  index : Z;
  binding : Z;
  transformFeedbackBuffer : Z;
  transformFeedbackOffset : Z;
  tesselationVertices : Z;
  maxGeometryVertices : Z;
  originUpperLeft : bool;
  pixelCenterInteger : bool;
  earlyFragmentTests : bool;
  primitiveType : PrimitiveType
}.

(** Modelled from the spec: [Layout()], the default member values of the
    Layout struct (declared in ShaderTool.h, which is not part of the
    sources). The spec says only that the record is reset "to defaults"
    and that the block-layout mode is one of unknown/std140/std430; the
    default mode is [unknown], numeric fields default to -1, flags to
    false and the primitive type to none. *)
Definition Layout_default : Layout :=
  mkLayout unknown (-1) (-1) (-1) (-1) (-1) (-1) (-1) (-1) (-1)
    false false false PrimNone.

(** Field setters used by [parseLayout]. *)
Definition set_blockLayout (x : BlockLayout) (l : Layout) : Layout :=
  mkLayout x (location l) (offset l) (layoutComponents l) (index l) (binding l)
    (transformFeedbackBuffer l) (transformFeedbackOffset l)
    (tesselationVertices l) (maxGeometryVertices l) (originUpperLeft l)
    (pixelCenterInteger l) (earlyFragmentTests l) (primitiveType l).
Definition set_location (x : Z) (l : Layout) : Layout :=
  mkLayout (blockLayout l) x (offset l) (layoutComponents l) (index l) (binding l)
    (transformFeedbackBuffer l) (transformFeedbackOffset l)
    (tesselationVertices l) (maxGeometryVertices l) (originUpperLeft l)
    (pixelCenterInteger l) (earlyFragmentTests l) (primitiveType l).
Definition set_offset (x : Z) (l : Layout) : Layout :=
  mkLayout (blockLayout l) (location l) x (layoutComponents l) (index l) (binding l)
    (transformFeedbackBuffer l) (transformFeedbackOffset l)
    (tesselationVertices l) (maxGeometryVertices l) (originUpperLeft l)
    (pixelCenterInteger l) (earlyFragmentTests l) (primitiveType l).
Definition set_layoutComponents (x : Z) (l : Layout) : Layout :=
  mkLayout (blockLayout l) (location l) (offset l) x (index l) (binding l)
    (transformFeedbackBuffer l) (transformFeedbackOffset l)
    (tesselationVertices l) (maxGeometryVertices l) (originUpperLeft l)
    (pixelCenterInteger l) (earlyFragmentTests l) (primitiveType l).
Definition set_index (x : Z) (l : Layout) : Layout :=
  mkLayout (blockLayout l) (location l) (offset l) (layoutComponents l) x (binding l)
    (transformFeedbackBuffer l) (transformFeedbackOffset l)
    (tesselationVertices l) (maxGeometryVertices l) (originUpperLeft l)
    (pixelCenterInteger l) (earlyFragmentTests l) (primitiveType l).
Definition set_binding (x : Z) (l : Layout) : Layout :=
  mkLayout (blockLayout l) (location l) (offset l) (layoutComponents l) (index l) x
    (transformFeedbackBuffer l) (transformFeedbackOffset l)
    (tesselationVertices l) (maxGeometryVertices l) (originUpperLeft l)
    (pixelCenterInteger l) (earlyFragmentTests l) (primitiveType l).
Definition set_transformFeedbackBuffer (x : Z) (l : Layout) : Layout :=
  mkLayout (blockLayout l) (location l) (offset l) (layoutComponents l) (index l)
    (binding l) x (transformFeedbackOffset l)
    (tesselationVertices l) (maxGeometryVertices l) (originUpperLeft l)
    (pixelCenterInteger l) (earlyFragmentTests l) (primitiveType l).
Definition set_transformFeedbackOffset (x : Z) (l : Layout) : Layout :=
  mkLayout (blockLayout l) (location l) (offset l) (layoutComponents l) (index l)
    (binding l) (transformFeedbackBuffer l) x
    (tesselationVertices l) (maxGeometryVertices l) (originUpperLeft l)
    (pixelCenterInteger l) (earlyFragmentTests l) (primitiveType l).
Definition set_tesselationVertices (x : Z) (l : Layout) : Layout :=
  mkLayout (blockLayout l) (location l) (offset l) (layoutComponents l) (index l)
    (binding l) (transformFeedbackBuffer l) (transformFeedbackOffset l)
    x (maxGeometryVertices l) (originUpperLeft l)
    (pixelCenterInteger l) (earlyFragmentTests l) (primitiveType l).
Definition set_maxGeometryVertices (x : Z) (l : Layout) : Layout :=
  mkLayout (blockLayout l) (location l) (offset l) (layoutComponents l) (index l)
    (binding l) (transformFeedbackBuffer l) (transformFeedbackOffset l)
    (tesselationVertices l) x (originUpperLeft l)
    (pixelCenterInteger l) (earlyFragmentTests l) (primitiveType l).
Definition set_originUpperLeft (l : Layout) : Layout :=
  mkLayout (blockLayout l) (location l) (offset l) (layoutComponents l) (index l)
    (binding l) (transformFeedbackBuffer l) (transformFeedbackOffset l)
    (tesselationVertices l) (maxGeometryVertices l) true
    (pixelCenterInteger l) (earlyFragmentTests l) (primitiveType l).
Definition set_pixelCenterInteger (l : Layout) : Layout :=
  mkLayout (blockLayout l) (location l) (offset l) (layoutComponents l) (index l)
    (binding l) (transformFeedbackBuffer l) (transformFeedbackOffset l)
    (tesselationVertices l) (maxGeometryVertices l) (originUpperLeft l)
    true (earlyFragmentTests l) (primitiveType l).
Definition set_earlyFragmentTests (l : Layout) : Layout :=
  mkLayout (blockLayout l) (location l) (offset l) (layoutComponents l) (index l)
    (binding l) (transformFeedbackBuffer l) (transformFeedbackOffset l)
    (tesselationVertices l) (maxGeometryVertices l) (originUpperLeft l)
    (pixelCenterInteger l) true (primitiveType l).
Definition set_primitiveType (x : PrimitiveType) (l : Layout) : Layout :=
  mkLayout (blockLayout l) (location l) (offset l) (layoutComponents l) (index l)
    (binding l) (transformFeedbackBuffer l) (transformFeedbackOffset l)
    (tesselationVertices l) (maxGeometryVertices l) (originUpperLeft l)
    (pixelCenterInteger l) (earlyFragmentTests l) x.

(** Modelled from the spec: [core::string::toInt] (core/String.h, not
    part of the sources), read as C's [atoi]: an optional sign followed by
    the longest run of decimal digits; a token that does not start with a
    number converts to 0, which the spec calls a "non-numeric" size. *)
Fixpoint atoi_digits (s : string) (acc : Z) : Z :=
  match s with
  | EmptyString => acc
  | String c rest =>
      let n := Z.of_nat (nat_of_ascii c) in
      if (48 <=? n) && (n <=? 57) then atoi_digits rest (acc * 10 + (n - 48))
      else acc
  end.

Definition toInt (s : string) : Z :=
  match s with
  | String "-"%char rest => int32 (- atoi_digits rest 0)
  | String "+"%char rest => int32 (atoi_digits rest 0)
  | _ => int32 (atoi_digits s 0)
  end.

(** ** Shader interface model *)

(** [ShaderTool::UniformBlock] *)
Record UniformBlock := mkUniformBlock {
  blockName : string;
  members : list ShaderVariable
}.

(** [ShaderTool::ShaderStruct] ([_shaderStruct]) *)
Record ShaderStruct := mkShaderStruct {
  structName : string;
  structFilename : string;
  uniforms : list ShaderVariable;
  uniformBlocks : list UniformBlock;
  attributes : list ShaderVariable;
  varyings : list ShaderVariable;
  outs : list ShaderVariable
}.

(** The members of [ShaderTool] that [parse] reads and writes:
    [_shaderStruct] and [_layout]. [seen] is an observation only: it logs,
    for every declaration the scanner turns into a [Variable], its name and
    the [_layout] in force at that point. *)
Record Tool := mkTool {
  shaderStruct : ShaderStruct;
  layout : Layout;
  seen : list (string * Layout)
}.

(** Modelled from the spec: the token cursor [_tok] (declared in
    ShaderTool.h, not part of the sources), "a replayable view over a
    preprocessed token stream (peek / advance / step-back /
    end-of-stream)". [past] holds the consumed tokens, most recent first;
    [prev] steps back over the last one; [peekNext] at the end of the
    stream yields no token. *)
Record Cursor := mkCursor {
  past : list string;
  future : list string
}.

(** The scanner's state: the tool, the locals [uniformBlock] and [block]
    of [ShaderTool::parse], and the cursor. *)
Record Scan := mkScan {
  tool : Tool;
  uniformBlock : bool;
  block : UniformBlock;
  tok : Cursor
}.

(** Outcome of a scanner computation: a value, a [continue] of the main
    loop, a [return] of [parse], or a fatal stop (a failed assertion or a
    read past the end of the stream). *)
Inductive Res (A : Type) :=
| ROk (a : A) (s : Scan)
| RCont (s : Scan)
| RRet (b : bool) (s : Scan)
| RAbort (s : Scan).
Arguments ROk {A}.
Arguments RCont {A}.
Arguments RRet {A}.
Arguments RAbort {A}.

Definition M (A : Type) : Type := Scan -> Res A.

Definition ret {A} (a : A) : M A := fun s => ROk a s.

Definition bind {A B} (m : M A) (k : A -> M B) : M B :=
  fun s =>
    match m s with
    | ROk a s' => k a s'
    | RCont s' => RCont s'
    | RRet b s' => RRet b s'
    | RAbort s' => RAbort s'
    end.

Notation "x <- m ;; k" := (bind m (fun x => k))
  (at level 61, m at next level, right associativity).
Notation "m ;;; k" := (bind m (fun _ => k))
  (at level 61, right associativity).

Definition return_ {A} (b : bool) : M A := fun s => RRet b s.
Definition continue {A} : M A := fun s => RCont s.
Definition abort {A} : M A := fun s => RAbort s.

Definition set_tool (t : Tool) (s : Scan) : Scan :=
  mkScan t (uniformBlock s) (block s) (tok s).
Definition set_uniformBlock (b : bool) (s : Scan) : Scan :=
  mkScan (tool s) b (block s) (tok s).
Definition set_block (b : UniformBlock) (s : Scan) : Scan :=
  mkScan (tool s) (uniformBlock s) b (tok s).
Definition set_tok (c : Cursor) (s : Scan) : Scan :=
  mkScan (tool s) (uniformBlock s) (block s) c.

Definition gets {A} (f : Scan -> A) : M A := fun s => ROk (f s) s.
Definition modify (f : Scan -> Scan) : M unit := fun s => ROk tt (f s).

Definition set_layout (l : Layout) (t : Tool) : Tool :=
  mkTool (shaderStruct t) l (seen t).
Definition set_shaderStruct (ss : ShaderStruct) (t : Tool) : Tool :=
  mkTool ss (layout t) (seen t).

Definition modify_layout (f : Layout -> Layout) : M unit :=
  modify (fun s => set_tool (set_layout (f (layout (tool s))) (tool s)) s).

(** Modelled from the spec: [core_assert_always] (core/Assert.h, not part
    of the sources): the condition is always evaluated and a false one
    stops the run, the spec's "fails fast". *)
Definition core_assert_always (b : bool) : M unit :=
  if b then ret tt else abort.

(** Cursor operations *)
Definition hasNext : M bool :=
  gets (fun s => match future (tok s) with [] => false | _ => true end).

Definition next : M string :=
  fun s =>
    match future (tok s) with
    | [] => RAbort s
    | t :: rest => ROk t (set_tok (mkCursor (t :: past (tok s)) rest) s)
    end.

Definition prev : M unit :=
  modify (fun s =>
    match past (tok s) with
    | [] => s
    | t :: rest => set_tok (mkCursor rest (t :: future (tok s))) s
    end).

Definition peekNext : M (option string) :=
  gets (fun s => match future (tok s) with [] => None | t :: _ => Some t end).

(** A key of a [layout(...)] list: a flag, a [key = value] pair, or a key
    the parser ignores. *)
Inductive LayoutKey :=
| KFlag (f : Layout -> Layout)
| KAssign (f : string -> Layout -> Layout)
| KIgnored.

(** The branches of the [if]/[else if] chain of [ShaderTool::parseLayout]
    (the key "compontents" is spelled as in the source). *)
Definition layout_key (token : string) : LayoutKey :=
  if String.eqb token "std140" then KFlag (set_blockLayout std140)
  else if String.eqb token "std430" then KFlag (set_blockLayout std430)
  else if String.eqb token "location" then KAssign (fun v => set_location (toInt v))
  else if String.eqb token "offset" then KAssign (fun v => set_offset (toInt v))
  else if String.eqb token "compontents" then KAssign (fun v => set_layoutComponents (toInt v))
  else if String.eqb token "index" then KAssign (fun v => set_index (toInt v))
  else if String.eqb token "binding" then KAssign (fun v => set_binding (toInt v))
  else if String.eqb token "xfb_buffer" then KAssign (fun v => set_transformFeedbackBuffer (toInt v))
  else if String.eqb token "xfb_offset" then KAssign (fun v => set_transformFeedbackOffset (toInt v))
  else if String.eqb token "vertices" then KAssign (fun v => set_tesselationVertices (toInt v))
  else if String.eqb token "max_vertices" then KAssign (fun v => set_maxGeometryVertices (toInt v))
  else if String.eqb token "origin_upper_left" then KFlag set_originUpperLeft
  else if String.eqb token "pixel_center_integer" then KFlag set_pixelCenterInteger
  else if String.eqb token "early_fragment_tests" then KFlag set_earlyFragmentTests
  else if String.eqb token "primitive_type" then KAssign (fun v => set_primitiveType (layoutPrimitiveType v))
  else KIgnored.

(** The [do { ... } while (token != ")")] loop of [parseLayout]. Every
    round consumes a token, so with [fuel] the number of tokens left the
    fuel only runs out where [_tok.hasNext()] is false. *)
Fixpoint layout_loop (fuel : nat) : M bool :=
  match fuel with
  | O => ret false
  | S f =>
      hn <- hasNext ;;
      if negb hn then ret false else
      token <- next ;;
      let again := if String.eqb token ")" then ret true else layout_loop f in
      match layout_key token with
      | KFlag g => modify_layout g ;;; again
      | KAssign g =>
          ok <- (h <- hasNext ;;
                 if h then (e <- next ;; ret (String.eqb e "=")) else ret false) ;;
          core_assert_always ok ;;;
          h2 <- hasNext ;;
          if negb h2 then ret false else
          value <- next ;;
          modify_layout (g value) ;;;
          again
      | KIgnored => again
      end
  end.

(** [ShaderTool::parseLayout] *)
Definition parseLayout : M bool :=
  hn <- hasNext ;;
  if negb hn then ret false else
  token <- next ;;
  if negb (String.eqb token "(") then ret false else
  fun s => layout_loop (length (future (tok s))) s.

(** ** Declaration scanner *)

Fixpoint getType_from (rows : list Types) (t : string) : option VarType :=
  match rows with
  | [] => None
  | r :: rest => if String.eqb t (glsltype r) then Some (type r) else getType_from rest t
  end.

(** [ShaderTool::getType]. Its failure branch logs and calls
    [core_assert_msg(false, ...)]; modelled from the spec ("fails (fatal,
    unrecoverable) if the token matches no entry"), it stops the run. *)
Definition getType (t : string) : M VarType :=
  match getType_from cTypes t with
  | Some ty => ret ty
  | None => abort
  end.

(** The four lists a top-level declaration can target ([v] in [parse]). *)
Inductive Target := TAttributes | TVaryings | TOuts | TUniforms.

Definition target_list (tg : Target) (ss : ShaderStruct) : list ShaderVariable :=
  match tg with
  | TAttributes => attributes ss
  | TVaryings => varyings ss
  | TOuts => outs ss
  | TUniforms => uniforms ss
  end.

Definition set_target_list (tg : Target) (l : list ShaderVariable) (ss : ShaderStruct)
    : ShaderStruct :=
  let '(mkShaderStruct n f u ub a v o) := ss in
  match tg with
  | TAttributes => mkShaderStruct n f u ub l v o
  | TVaryings => mkShaderStruct n f u ub a l o
  | TOuts => mkShaderStruct n f u ub a v l
  | TUniforms => mkShaderStruct n f l ub a v o
  end.

Definition push_uniformBlock (b : UniformBlock) (ss : ShaderStruct) : ShaderStruct :=
  let '(mkShaderStruct n f u ub a v o) := ss in
  mkShaderStruct n f u (ub ++ [b]) a v o.

Definition modify_struct (f : ShaderStruct -> ShaderStruct) : M unit :=
  modify (fun s => set_tool (set_shaderStruct (f (shaderStruct (tool s))) (tool s)) s).

(** The [}] branch: the block is appended, the layout reset, and the
    trailing [;] asserted. *)
Definition close_block : M unit :=
  modify (set_uniformBlock false) ;;;
  b <- gets block ;;
  modify_struct (push_uniformBlock b) ;;;
  modify_layout (fun _ => Layout_default) ;;;
  t <- next ;;
  core_assert_always (String.eqb t ";").

(** The keyword dispatch at the top of the loop body of [parse]. *)
Definition select_target (vertex : bool) (token : string) : M (option Target) :=
  if String.eqb token "$in" then ret (if vertex then Some TAttributes else None)
  else if String.eqb token "$out" then ret (Some (if vertex then TVaryings else TOuts))
  else if String.eqb token "layout" then (_ <- parseLayout ;; ret None)
  else if String.eqb token "buffer" then ret None
  else if String.eqb token "uniform" then ret (Some TUniforms)
  else
    ub <- gets uniformBlock ;;
    if ub then
      (if String.eqb token "}" then close_block ;;; ret None
       else prev ;;; ret None)
    else ret None.

Definition is_precision (t : string) : bool :=
  String.eqb t "highp" || String.eqb t "mediump" || String.eqb t "lowp"
  || String.eqb t "precision".

(** The [while (type == "highp" || ...)] loop; every round consumes a
    token, so with [fuel] the number of tokens left the fuel only runs out
    where [_tok.hasNext()] is false. *)
Fixpoint skip_precision (fuel : nat) (t : string) : M string :=
  if negb (is_precision t) then ret t else
  match fuel with
  | O => return_ false
  | S f =>
      hn <- hasNext ;;
      if negb hn then return_ false else
      t' <- next ;;
      skip_precision f t'
  end.

Definition option_is (o : option string) (t : string) : bool :=
  match o with Some x => String.eqb x t | None => false end.

(** The array suffix [ [N] ; ] of a declaration. *)
Definition parse_array_size : M Z :=
  p <- peekNext ;;
  if option_is p "[" then
    next ;;;
    number <- next ;;
    c1 <- next ;; core_assert_always (String.eqb c1 "]") ;;;
    c2 <- next ;; core_assert_always (String.eqb c2 ";") ;;;
    let n := toInt number in
    ret (if n =? 0 then -1 else n)
  else ret 0.

Definition record_seen (name : string) : M unit :=
  modify (fun s =>
    let t := tool s in
    set_tool (mkTool (shaderStruct t) (layout t) (seen t ++ [(name, layout t)])) s).

Definition has_name (name : string) (l : list ShaderVariable) : bool :=
  existsb (fun var => String.eqb (vname var) name) l.

(** The tail of the loop body: a block member is appended to [block]; a
    top-level variable is appended to its list unless its name is already
    there, and then the layout is reset. *)
Definition add_variable (v : option Target) (var : ShaderVariable) : M unit :=
  record_seen (vname var) ;;;
  ub <- gets uniformBlock ;;
  if ub then
    modify (fun s =>
      set_block (mkUniformBlock (blockName (block s)) (members (block s) ++ [var])) s)
  else
    match v with
    | None => ret tt
    | Some tg =>
        l <- gets (fun s => target_list tg (shaderStruct (tool s))) ;;
        if has_name (vname var) l then ret tt
        else
          modify_struct (fun ss => set_target_list tg (l ++ [var]) ss) ;;;
          modify_layout (fun _ => Layout_default)
    end.

(** The declaration part of a round of the loop of [ShaderTool::parse],
    once [select_target] has chosen the target list [v]. *)
Definition scan_declaration (v : option Target) : M unit :=
  ub <- gets uniformBlock ;;
  if negb (match v with Some _ => true | None => false end) && negb ub then continue else
  hn <- hasNext ;;
  if negb hn then return_ false else
  t0 <- next ;;
  hn2 <- hasNext ;;
  if negb hn2 then return_ false else
  ty <- (fun s => skip_precision (length (future (tok s))) t0 s) ;;
  name <- next ;;
  if String.eqb name "{" then
    modify (set_block (mkUniformBlock ty [])) ;;;
    modify (set_uniformBlock true) ;;;
    continue
  else
  typeEnum <- getType ty ;;
  arraySize <- parse_array_size ;;
  add_variable v (mkVariable typeEnum name arraySize).

(** One round of the [while (_tok.hasNext())] loop of [ShaderTool::parse]. *)
Definition scan_body (vertex : bool) : M unit :=
  token <- next ;;
  v <- select_target vertex token ;;
  scan_declaration v.

(** The loop itself, and the check after it. Every round consumes a token,
    so [parse] gives one more round than there are tokens; [RCont] is
    returned only if the fuel runs out. *)
Fixpoint scan_loop (fuel : nat) (vertex : bool) (s : Scan) : Res unit :=
  match fuel with
  | O => RCont s
  | S f =>
      match future (tok s) with
      | [] => if uniformBlock s then RRet false s else RRet true s
      | _ :: _ =>
          match scan_body vertex s with
          | ROk _ s' | RCont s' => scan_loop f vertex s'
          | RRet b s' => RRet b s'
          | RAbort s' => RAbort s'
          end
      end
  end.

Definition empty_block : UniformBlock := mkUniformBlock "" [].

(** [ShaderTool::parse] over the preprocessed token stream of one stage. *)
Definition parse (t : Tool) (tokens : list string) (vertex : bool) : Res unit :=
  scan_loop (S (length tokens)) vertex (mkScan t false empty_block (mkCursor [] tokens)).

Definition res_scan {A} (r : Res A) : Scan :=
  match r with ROk _ s | RCont s | RRet _ s | RAbort s => s end.

Definition res_tool {A} (r : Res A) : Tool := tool (res_scan r).

Definition empty_struct (n : string) : ShaderStruct :=
  mkShaderStruct n n [] [] [] [] [].

Definition fresh_tool (n : string) : Tool :=
  mkTool (empty_struct n) Layout_default [].

(** ** Generated class name *)

(** [SDL_toupper]: ASCII upper case. *)
Definition toupper (c : ascii) : ascii :=
  let n := nat_of_ascii c in
  if (97 <=? n)%nat && (n <=? 122)%nat then ascii_of_nat (n - 32) else c.

(** [n[0] = SDL_toupper(n[0])]; on an empty string [n[0]] is the
    terminating NUL, which stays NUL. *)
Definition capitalize (n : string) : string :=
  match n with
  | EmptyString => EmptyString
  | String c r => String (toupper c) r
  end.

(** Cutting a string at every [_], keeping the empty pieces. *)
Fixpoint split_keep (s : string) : list string :=
  match s with
  | EmptyString => [""]
  | String c r =>
      let ps := split_keep r in
      if Ascii.eqb c "_" then "" :: ps
      else match ps with
           | p :: ps' => String c p :: ps'
           | [] => [String c ""]
           end
  end.

(** Modelled from the spec: [core::string::splitString] (its source is not
    part of the sources) read as the usual delimiter split, which collects
    the maximal runs of non-delimiter characters, i.e. the non-empty pieces. *)
Definition splitString (s : string) : list string :=
  filter (fun p => negb (String.eqb p "")) (split_keep s).

(** The class and file name computed at the start of
    [ShaderTool::generateSrc] from the shader name [base]. *)
Definition shader_filename (base : string) : string :=
  let name := base ++ "Shader" in
  let shaderNameParts := splitString name in
  let filename :=
    fold_left (fun filename n =>
      if (1 <? String.length n)%nat || (List.length shaderNameParts <? 2)%nat
      then filename ++ capitalize n else filename)
      shaderNameParts "" in
  if String.eqb filename "" then name else filename.

(** The name derivation as the spec words it: split [base ++ "Shader"] at
    [_]; if that gives two or more parts drop those of length 1; capitalize
    and concatenate the rest; if nothing is left use the unsplit name. *)
Definition claim_filename (base : string) : string :=
  let name := base ++ "Shader" in
  let parts := split_keep name in
  let kept := if (List.length parts <? 2)%nat then parts
              else filter (fun p => negb (String.length p =? 1)%nat) parts in
  let f := fold_right String.append "" (map capitalize kept) in
  if String.eqb f "" then name else f.

(** ** Setter generation *)

(** [ShaderTool::uniformSetterPostfix]: the suffix of the [setUniform...]
    call for a variable of type [t] and element count [amount]. *)
Definition uniformSetterPostfix (t : VarType) (amount : Z) : string :=
  match t with
  | FLOAT => if 1 <? amount then "1fv" else "f"
  | DOUBLE => if 1 <? amount then "1dv" else "d"
  | UNSIGNED_INT => if 1 <? amount then "1uiv" else "ui"
  | BOOL | INT => if 1 <? amount then "1iv" else "i"
  | DVEC2 | BVEC2 | UVEC2 | VEC2 => if 1 <? amount then "Vec2v" else "Vec2"
  | DVEC3 | BVEC3 | UVEC3 | VEC3 => if 1 <? amount then "Vec3v" else "Vec3"
  | DVEC4 | BVEC4 | UVEC4 | VEC4 => if 1 <? amount then "Vec4v" else "Vec4"
  | IVEC2 => if 1 <? amount then "Vec2v" else "Vec2"
  | IVEC3 => if 1 <? amount then "Vec3v" else "Vec3"
  | IVEC4 => if 1 <? amount then "Vec4v" else "Vec4"
  | MAT3X4 | MAT4X3 | MAT2 | MAT3 | MAT4 => if 1 <? amount then "Matrixv" else "Matrix"
  | SAMPLER1D | SAMPLER2D | SAMPLER3D | SAMPLER1DSHADOW | SAMPLER2DSHADOW
  | SAMPLER2DARRAY | SAMPLER2DARRAYSHADOW => if 1 <? amount then "1iv" else ""
  | SAMPLERCUBEMAP => if 1 <? amount then "1iv" else "i"
  end.

(** The [setUniform...] line of the setter [ShaderTool::generateSrc] writes
    for a uniform [v]. *)
Definition setter_call (v : ShaderVariable) : string :=
  TAB ++ TAB ++ "setUniform"
  ++ uniformSetterPostfix (vtype v) (if arraySize v =? -1 then 2 else arraySize v)
  ++ "(location, " ++ vname v
  ++ (if 0 <? arraySize v then ", " ++ Z_to_string (arraySize v)
      else if arraySize v =? -1 then ", amount" else "")
  ++ ");" ++ NL.

(** ** Uniform block structure *)

Definition QUOTE : string := String (ascii_of_nat 34) "".

(** The member loop of the [struct Data] that [ShaderTool::generateSrc]
    writes for a uniform block: the text [ub], the [size_t structSize] and
    the [int paddingCnt] are threaded through. [convertName] stands for
    [util::convertName], which is not part of the sources; [bl] is
    [_layout.blockLayout]. *)
Fixpoint data_members (convertName : string -> bool -> string) (bl : BlockLayout)
    (ms : list ShaderVariable) (ub : string) (structSize paddingCnt : Z) : string * Z * Z :=
  match ms with
  | [] => (ub, structSize, paddingCnt)
  | v :: rest =>
      let uniformName := convertName (vname v) false in
      let cType := cType_of (vtype v) in
      let ub1 := ub ++ TAB ++ TAB ++ typeAlign bl v ++ ctype cType ++ " " ++ uniformName in
      let memberSize := typeSize bl v in
      let structSize' := to_size_t (structSize + memberSize) in
      let ub2 := if 0 <? arraySize v then ub1 ++ "[" ++ Z_to_string (arraySize v) ++ "]" else ub1 in
      let ub3 := ub2 ++ "; // " ++ Z_to_string memberSize ++ " bytes" ++ NL in
      let '(pad, paddingCnt') := typePadding bl v paddingCnt in
      data_members convertName bl rest (ub3 ++ pad) structSize' paddingCnt'
  end.

(** The [struct Data] text from [#pragma pack(push, 1)] to the
    [static_assert] line, with the accumulated [structSize]. *)
Definition data_struct (convertName : string -> bool -> string) (bl : BlockLayout)
    (ms : list ShaderVariable) : string * Z :=
  let '(body, structSize, _) := data_members convertName bl ms "" 0 0 in
  (TAB ++ "#pragma pack(push, 1)" ++ NL ++ TAB ++ "struct Data {" ++ NL
   ++ body ++ TAB ++ "};" ++ NL ++ TAB ++ "#pragma pack(pop)" ++ NL
   ++ (if 0 <? USE_ALIGN_AS then
         TAB ++ "static_assert(sizeof(Data) == " ++ Z_to_string structSize ++ ", "
         ++ QUOTE ++ "Unexpected structure size for Data" ++ QUOTE ++ ");" ++ NL
       else ""),
   structSize).

(** ** Stage driver *)

(** One [parse] call of [ShaderTool::onRunning]: the return value is
    ignored, and an abort ends the run. *)
Definition run_stage (t : option Tool) (tokens : list string) (vertex : bool) : option Tool :=
  match t with
  | None => None
  | Some t0 =>
      match parse t0 tokens vertex with
      | RAbort _ => None
      | r => Some (res_tool r)
      end
  end.

(** The parsing part of [ShaderTool::onRunning]: name and filename set to
    the shader file, then the fragment stage, the geometry and compute
    stages when their buffers are not empty, and the vertex stage last, all
    on the same tool. *)
Definition parse_stages (shaderfile : string) (fragment : list string)
    (geometry compute : option (list string)) (vertex : list string) : option Tool :=
  let t1 := run_stage (Some (fresh_tool shaderfile)) fragment false in
  let t2 := match geometry with Some g => run_stage t1 g false | None => t1 end in
  let t3 := match compute with Some c => run_stage t2 c false | None => t2 end in
  run_stage t3 vertex true.

(** The validation step at the end of [ShaderTool::onRunning]: [exitCode]
    is [_exitCode] before it; a stage whose source is empty is not
    validated and keeps its code at 0 ([None]). *)
Definition validation_exit_code (exitCode fragmentCode vertexCode : Z)
    (geometryCode computeCode : option Z) : Z :=
  let geometryValidationExitCode := match geometryCode with Some c => c | None => 0 end in
  let computeValidationExitCode := match computeCode with Some c => c | None => 0 end in
  if negb (fragmentCode =? 0) then fragmentCode
  else if negb (vertexCode =? 0) then vertexCode
  else if negb (geometryValidationExitCode =? 0) then geometryValidationExitCode
  else if negb (computeValidationExitCode =? 0) then computeValidationExitCode
  else exitCode.

(** ** Observations and inputs used by the statements *)

(** [pres P m]: running [m] from a state satisfying [P] ends, whatever its
    outcome, in a state satisfying [P]. *)
Definition pres {A} (P : Scan -> Prop) (m : M A) : Prop :=
  forall s, P s -> P (res_scan (m s)).

Definition names_unique (ss : ShaderStruct) : Prop :=
  forall tg, NoDup (map vname (target_list tg ss)).

Definition Target_eqb (a b : Target) : bool :=
  match a, b with
  | TAttributes, TAttributes | TVaryings, TVaryings
  | TOuts, TOuts | TUniforms, TUniforms => true
  | _, _ => false
  end.

(** The token stream of [uniform B { float a[1]; float a[2]; };]. *)
Definition tokens_block_dup : list string :=
  ["uniform"; "B"; "{"; "float"; "a"; "["; "1"; "]"; ";";
   "float"; "a"; "["; "2"; "]"; ";"; "}"; ";"].

(** [hoare P m Q]: from a state satisfying [P], [m] ends, whatever its
    outcome, in a state satisfying [Q]. *)
Definition hoare {A} (P : Scan -> Prop) (m : M A) (Q : Scan -> Prop) : Prop :=
  forall s, P s -> Q (res_scan (m s)).

(** The layout in force when the scanner built the last variable named
    [n], as recorded in [seen]. *)
Definition layout_seen (r : Res unit) (n : string) : option Layout :=
  fold_left (fun acc '(m, l) => if String.eqb m n then Some l else acc)
    (seen (res_tool r)) None.

(** The token stream of
    [uniform B { layout(offset = x) float a[1]; float b[1]; }; uniform float c;]. *)
Definition tokens_block_layout (x : string) : list string :=
  ["uniform"; "B"; "{"; "layout"; "("; "offset"; "="; x; ")";
   "float"; "a"; "["; "1"; "]"; ";"; "float"; "b"; "["; "1"; "]"; ";"; "}"; ";";
   "uniform"; "float"; "c"; ";"].

Definition routing_scan (tokens : list string) : Scan :=
  mkScan (fresh_tool "s") false empty_block (mkCursor [] tokens).

Definition closing_scan : Scan :=
  mkScan (fresh_tool "s") true (mkUniformBlock "B" []) (mkCursor ["{"; "B"; "uniform"] ["}"; ";"]).

(** The last character of a string. *)
Definition last_char (s : string) : option ascii := String.get (String.length s - 1) s.

(** One qualifier of a [layout(...)] list as tokens: a flag, [key = value],
    or a key the parser ignores. *)
Inductive Qual :=
| QFlag (k : string)
| QAssign (k v : string)
| QIgnored (k : string).

Definition qual_tokens (q : Qual) : list string :=
  match q with
  | QFlag k => [k]
  | QAssign k v => [k; "="; v]
  | QIgnored k => [k]
  end.

(** The qualifier's key is of its kind (an ignored key is not [)]). *)
Definition qual_ok (q : Qual) : bool :=
  match q with
  | QFlag k => match layout_key k with KFlag _ => true | _ => false end
  | QAssign k _ => match layout_key k with KAssign _ => true | _ => false end
  | QIgnored k => match layout_key k with KIgnored => negb (String.eqb k ")") | _ => false end
  end.

Definition qual_apply (l : Layout) (q : Qual) : Layout :=
  match q with
  | QFlag k => match layout_key k with KFlag g => g l | _ => l end
  | QAssign k v => match layout_key k with KAssign g => g v l | _ => l end
  | QIgnored _ => l
  end.

(** [ss] is [ss0] with possibly more entries at the end of every list, and
    the same name and filename. *)
Definition struct_extends (ss0 ss : ShaderStruct) : Prop :=
  structName ss = structName ss0 /\ structFilename ss = structFilename ss0 /\
  (exists l, uniformBlocks ss = (uniformBlocks ss0 ++ l)%list) /\
  forall tg, exists l, target_list tg ss = (target_list tg ss0 ++ l)%list.

(** One line of [struct Data] per member, without a padding field. *)
Definition member_line (convertName : string -> bool -> string) (bl : BlockLayout)
    (v : ShaderVariable) : string :=
  TAB ++ TAB ++ typeAlign bl v ++ ctype (cType_of (vtype v)) ++ " " ++ convertName (vname v) false
  ++ (if 0 <? arraySize v then "[" ++ Z_to_string (arraySize v) ++ "]" else "")
  ++ "; // " ++ Z_to_string (typeSize bl v) ++ " bytes" ++ NL.

(** The four validator codes in the order [onRunning] tests them; a stage
    not validated counts as 0. *)
Definition stage_codes (fr vx : Z) (ge co : option Z) : list Z :=
  [fr; vx; match ge with Some c => c | None => 0 end; match co with Some c => c | None => 0 end].

(** The fields of the Layout record, and their values. *)
Inductive LayoutField :=
| FBlockLayout | FLocation | FOffset | FComponents | FIndex | FBinding
| FXfbBuffer | FXfbOffset | FVertices | FMaxVertices
| FOriginUpperLeft | FPixelCenterInteger | FEarlyFragmentTests | FPrimitiveType.

Inductive FieldValue :=
| VBlock (b : BlockLayout) | VInt (z : Z) | VFlag (b : bool) | VPrim (p : PrimitiveType).

Definition field_value (f : LayoutField) (l : Layout) : FieldValue :=
  match f with
  | FBlockLayout => VBlock (blockLayout l)
  | FLocation => VInt (location l)
  | FOffset => VInt (offset l)
  | FComponents => VInt (layoutComponents l)
  | FIndex => VInt (index l)
  | FBinding => VInt (binding l)
  | FXfbBuffer => VInt (transformFeedbackBuffer l)
  | FXfbOffset => VInt (transformFeedbackOffset l)
  | FVertices => VInt (tesselationVertices l)
  | FMaxVertices => VInt (maxGeometryVertices l)
  | FOriginUpperLeft => VFlag (originUpperLeft l)
  | FPixelCenterInteger => VFlag (pixelCenterInteger l)
  | FEarlyFragmentTests => VFlag (earlyFragmentTests l)
  | FPrimitiveType => VPrim (primitiveType l)
  end.

Definition field_eqb (a b : LayoutField) : bool :=
  match a, b with
  | FBlockLayout, FBlockLayout | FLocation, FLocation | FOffset, FOffset
  | FComponents, FComponents | FIndex, FIndex | FBinding, FBinding
  | FXfbBuffer, FXfbBuffer | FXfbOffset, FXfbOffset | FVertices, FVertices
  | FMaxVertices, FMaxVertices | FOriginUpperLeft, FOriginUpperLeft
  | FPixelCenterInteger, FPixelCenterInteger | FEarlyFragmentTests, FEarlyFragmentTests
  | FPrimitiveType, FPrimitiveType => true
  | _, _ => false
  end.

(** The field a qualifier key of [parseLayout] assigns, and the value it
    assigns for the value token [v]. *)
Definition key_write (k v : string) : option (LayoutField * FieldValue) :=
  if String.eqb k "std140" then Some (FBlockLayout, VBlock std140)
  else if String.eqb k "std430" then Some (FBlockLayout, VBlock std430)
  else if String.eqb k "location" then Some (FLocation, VInt (toInt v))
  else if String.eqb k "offset" then Some (FOffset, VInt (toInt v))
  else if String.eqb k "compontents" then Some (FComponents, VInt (toInt v))
  else if String.eqb k "index" then Some (FIndex, VInt (toInt v))
  else if String.eqb k "binding" then Some (FBinding, VInt (toInt v))
  else if String.eqb k "xfb_buffer" then Some (FXfbBuffer, VInt (toInt v))
  else if String.eqb k "xfb_offset" then Some (FXfbOffset, VInt (toInt v))
  else if String.eqb k "vertices" then Some (FVertices, VInt (toInt v))
  else if String.eqb k "max_vertices" then Some (FMaxVertices, VInt (toInt v))
  else if String.eqb k "origin_upper_left" then Some (FOriginUpperLeft, VFlag true)
  else if String.eqb k "pixel_center_integer" then Some (FPixelCenterInteger, VFlag true)
  else if String.eqb k "early_fragment_tests" then Some (FEarlyFragmentTests, VFlag true)
  else if String.eqb k "primitive_type" then Some (FPrimitiveType, VPrim (layoutPrimitiveType v))
  else None.

(** The field a qualifier assigns, if any. *)
Definition qual_write (q : Qual) : option (LayoutField * FieldValue) :=
  match q with
  | QFlag k => key_write k ""
  | QAssign k v => key_write k v
  | QIgnored _ => None
  end.

(** The value of field [f] after the qualifiers [qs], starting from [d]:
    each qualifier that assigns [f] overwrites it, in order. *)
Definition field_after (qs : list Qual) (f : LayoutField) (d : FieldValue) : FieldValue :=
  fold_left (fun acc q =>
    match qual_write q with
    | Some (f', v) => if field_eqb f f' then v else acc
    | None => acc
    end) qs d.

(** [scan_loop] goes from [s] to [s'] in some number of rounds, whatever
    fuel is left after them. *)
Definition reaches (vertex : bool) (s s' : Scan) : Prop :=
  exists n, forall f, scan_loop (n + f) vertex s = scan_loop f vertex s'.

(** The tokens of one [layout(...)] group with the qualifiers [qs]. *)
Definition layout_group (qs : list Qual) : list string :=
  "layout" :: "(" :: flat_map qual_tokens qs ++ [")"].

(** The block flag, the open block and the log of seen layouts are [u], [b]
    and [sn]. *)
Definition frame (u : bool) (b : UniformBlock) (sn : list (string * Layout)) (s : Scan) : Prop :=
  uniformBlock s = u /\ block s = b /\ seen (tool s) = sn.


(** ** Reference readings of the spec *)

(** The size rule as the spec states it (section 4.5): 2-component vectors
    count 2 components, 3- and 4-component vectors 4, mat2 4, mat3 9,
    mat4/mat3x4/mat4x3 16, everything else 1; the unit is 8 bytes for
    double scalars and vectors, 4 otherwise. *)
Definition spec_components (t : VarType) : Z :=
  match t with
  | BVEC2 | DVEC2 | UVEC2 | IVEC2 | VEC2 => 2
  | BVEC3 | DVEC3 | UVEC3 | IVEC3 | VEC3
  | BVEC4 | DVEC4 | UVEC4 | IVEC4 | VEC4 => 4
  | MAT2 => 4
  | MAT3 => 9
  | MAT4 | MAT3X4 | MAT4X3 => 16
  | _ => 1
  end.

Definition spec_unit (t : VarType) : Z :=
  match t with
  | DOUBLE | DVEC2 | DVEC3 | DVEC4 => 8
  | _ => 4
  end.

Definition spec_std140Size (v : ShaderVariable) : Z :=
  let base := spec_components (vtype v) * spec_unit (vtype v) in
  if 0 <? arraySize v then base * arraySize v else base.

(** ** Memory layout: theorems *)

Lemma int32_small (x : Z) : 0 <= x < 2 ^ 31 -> int32 x = x.
Proof.
  intros H. unfold int32.
  rewrite Z.mod_small by lia.
  destruct (2 ^ 31 <=? x) eqn:E; [apply Z.leb_le in E; lia | reflexivity].
Qed.

Lemma to_size_t_small (x : Z) : 0 <= x < 2 ^ 64 -> to_size_t x = x.
Proof. intros H. unfold to_size_t. apply Z.mod_small; lia. Qed.

(** Apart from [uvec3], the code's size is the spec's rule whenever the
    [int] product does not overflow. *)
Lemma std140Size_matches_spec_except_uvec3 (v : ShaderVariable) :
  vtype v <> UVEC3 -> arraySize v < 2 ^ 24 ->
  std140Size v = spec_std140Size v.
Proof.
  intros Ht Ha. destruct v as [t n a]; simpl in *.
  unfold std140Size, spec_std140Size.
  destruct t; try congruence;
    cbn [cType_of nth type_index cTypes type components VarType_eqb orb vtype arraySize
         spec_components spec_unit];
    match goal with
    | |- context [int32 (Z.pos ?c * Z.pos ?b)] =>
        replace (int32 (Z.pos c * Z.pos b)) with (Z.pos c * Z.pos b) by reflexivity
    end;
    destruct (0 <? a) eqn:Hpos;
    try (apply Z.ltb_lt in Hpos;
         rewrite int32_small by lia; rewrite to_size_t_small by lia; reflexivity);
    reflexivity.
Qed.

(** C1 (code_bug): the size rule rounds every 3-component vector to 4
    components, but [std140Size] lists vec3, dvec3, ivec3 and bvec3 and
    leaves uvec3 out: a uvec3 member is sized 12 bytes, while vec3, ivec3
    and bvec3 are sized 16. The examples of the spec hold: float 4,
    vec3 16, vec4[3] 48, mat4 64. *)
Lemma std140Size_uvec3_is_12 :
  std140Size (mkVariable UVEC3 "u" 0) = 12
  /\ spec_std140Size (mkVariable UVEC3 "u" 0) = 16
  /\ std140Size (mkVariable VEC3 "u" 0) = 16
  /\ std140Size (mkVariable IVEC3 "u" 0) = 16
  /\ std140Size (mkVariable BVEC3 "u" 0) = 16
  /\ std140Size (mkVariable FLOAT "u" 0) = 4
  /\ std140Size (mkVariable VEC4 "u" 3) = 48
  /\ std140Size (mkVariable MAT4 "u" 0) = 64.
Proof. repeat split; reflexivity. Qed.

(** C2 (code_bug): every vector type should get [alignas(16)], but
    [std140Align] lists the vec, dvec, ivec and bvec families and leaves
    out uvec2, uvec3 and uvec4, which get no directive, while ivec3 gets
    [alignas(16)]. Float and double get [alignas(4)], mat4 and int
    nothing. *)
Lemma std140Align_uvec_no_directive :
  std140Align (mkVariable UVEC2 "u" 0) = ""
  /\ std140Align (mkVariable UVEC3 "u" 0) = ""
  /\ std140Align (mkVariable UVEC4 "u" 0) = ""
  /\ std140Align (mkVariable IVEC3 "u" 0) = "alignas(16) "
  /\ std140Align (mkVariable FLOAT "u" 0) = "alignas(4) "
  /\ std140Align (mkVariable DOUBLE "u" 0) = "alignas(4) "
  /\ std140Align (mkVariable MAT4 "u" 0) = ""
  /\ std140Align (mkVariable INT "u" 0) = "".
Proof. repeat split; reflexivity. Qed.

(** C3: the std430 alignment, size and padding are the std140 ones, for
    every variable and padding counter; and [typeAlign], [typeSize] and
    [typePadding] give the std140 results in every block-layout mode, the
    [unknown] mode included. *)
Theorem std430_is_std140 :
  forall (v : ShaderVariable) (padding : Z),
    std430Align v = std140Align v
    /\ std430Size v = std140Size v
    /\ std430Padding v padding = std140Padding v padding
    /\ typeAlign unknown v = std140Align v
    /\ typeSize unknown v = std140Size v
    /\ typePadding unknown v padding = std140Padding v padding
    /\ (forall bl, typeAlign bl v = std140Align v
                   /\ typeSize bl v = std140Size v
                   /\ typePadding bl v padding = std140Padding v padding).
Proof.
  intros v padding.
  repeat split; try reflexivity; destruct bl; reflexivity.
Qed.

(** ** Scanner invariants: the preservation calculus *)

Lemma bind_pres {A B} (P : Scan -> Prop) (m : M A) (k : A -> M B) :
  pres P m -> (forall a, pres P (k a)) -> pres P (bind m k).
Proof.
  intros Hm Hk s Hs. unfold bind.
  specialize (Hm s Hs). destruct (m s) eqn:E; simpl in *; auto.
  apply Hk; exact Hm.
Qed.

Lemma ret_pres {A} P (a : A) : pres P (ret a).
Proof. intros s Hs; exact Hs. Qed.
Lemma return_pres {A} P b : pres P (@return_ A b).
Proof. intros s Hs; exact Hs. Qed.
Lemma continue_pres {A} P : pres P (@continue A).
Proof. intros s Hs; exact Hs. Qed.
Lemma abort_pres {A} P : pres P (@abort A).
Proof. intros s Hs; exact Hs. Qed.
Lemma gets_pres {A} P (f : Scan -> A) : pres P (gets f).
Proof. intros s Hs; exact Hs. Qed.
Lemma modify_pres P f : (forall s, P s -> P (f s)) -> pres P (modify f).
Proof. intros H s Hs; apply H; exact Hs. Qed.

Section ModelInvariant.

(** Invariants that look at the shader interface model and the layout
    record only. *)
Variable R : ShaderStruct -> Layout -> Prop.
Definition on_model (s : Scan) : Prop := R (shaderStruct (tool s)) (layout (tool s)).

Lemma assert_pres b : pres on_model (core_assert_always b).
Proof. unfold core_assert_always; destruct b; intros s Hs; exact Hs. Qed.
Lemma hasNext_pres : pres on_model hasNext.
Proof. apply gets_pres. Qed.
Lemma next_pres : pres on_model next.
Proof. intros s Hs; unfold next; destruct (future (tok s)); exact Hs. Qed.
Lemma prev_pres : pres on_model prev.
Proof. apply modify_pres; intros s Hs; destruct (past (tok s)); exact Hs. Qed.
Lemma peekNext_pres : pres on_model peekNext.
Proof. apply gets_pres. Qed.
Lemma set_block_pres b : pres on_model (modify (set_block b)).
Proof. apply modify_pres; intros s Hs; exact Hs. Qed.
Lemma set_uniformBlock_pres b : pres on_model (modify (set_uniformBlock b)).
Proof. apply modify_pres; intros s Hs; exact Hs. Qed.
Lemma record_seen_pres n : pres on_model (record_seen n).
Proof. apply modify_pres; intros s Hs; exact Hs. Qed.
Lemma modify_block_pres f : pres on_model (modify (fun s => set_block (f s) s)).
Proof. apply modify_pres; intros s Hs; exact Hs. Qed.

End ModelInvariant.

Section StructInvariant.

(** Invariants that look at the shader interface model only. *)
Variable Q : ShaderStruct -> Prop.
Definition on_struct (s : Scan) : Prop := on_model (fun ss _ => Q ss) s.

Lemma modify_layout_pres f : pres on_struct (modify_layout f).
Proof. apply modify_pres; intros s Hs; exact Hs. Qed.

End StructInvariant.

Create HintDb pres.
#[export] Hint Resolve ret_pres return_pres continue_pres abort_pres gets_pres
  assert_pres hasNext_pres next_pres prev_pres peekNext_pres modify_layout_pres
  set_block_pres set_uniformBlock_pres record_seen_pres modify_block_pres : pres.

Ltac pres_tac :=
  repeat
    match goal with
    | |- pres _ (bind _ _) => apply bind_pres; [|intros ?]
    | |- pres _ (if ?b then _ else _) => destruct b
    | |- pres _ (match ?x with _ => _ end) => destruct x
    | |- pres _ (let _ := _ in _) => cbv zeta
    | _ => solve [eauto with pres]
    end.

Lemma layout_loop_pres Q fuel : pres (on_struct Q) (layout_loop fuel).
Proof.
  induction fuel as [|f IH]; simpl; [apply ret_pres|].
  pres_tac.
Qed.

Lemma parseLayout_pres Q : pres (on_struct Q) parseLayout.
Proof.
  unfold parseLayout. pres_tac.
  intros s Hs. apply layout_loop_pres; exact Hs.
Qed.

Lemma skip_precision_pres R fuel t : pres (on_model R) (skip_precision fuel t).
Proof.
  revert t; induction fuel as [|f IH]; intros t; simpl; pres_tac.
Qed.

Lemma getType_pres R t : pres (on_model R) (getType t).
Proof. unfold getType; pres_tac. Qed.

Lemma parse_array_size_pres R : pres (on_model R) parse_array_size.
Proof. unfold parse_array_size; pres_tac. Qed.

#[export] Hint Resolve layout_loop_pres parseLayout_pres skip_precision_pres
  getType_pres parse_array_size_pres : pres.

(** ** Unique names in the top-level lists *)

Lemma target_list_set tg tg' l ss :
  target_list tg' (set_target_list tg l ss)
  = if Target_eqb tg tg' then l else target_list tg' ss.
Proof. destruct ss; destruct tg, tg'; reflexivity. Qed.

Lemma target_list_push tg b ss :
  target_list tg (push_uniformBlock b ss) = target_list tg ss.
Proof. destruct ss; destruct tg; reflexivity. Qed.

Lemma has_name_false n l :
  has_name n l = false -> ~ In n (map vname l).
Proof.
  unfold has_name. intros H Hin.
  apply in_map_iff in Hin as [x [Hx Hin]].
  assert (existsb (fun var => String.eqb (vname var) n) l = true) as C.
  { apply existsb_exists. exists x. split; [exact Hin|].
    apply String.eqb_eq; exact Hx. }
  congruence.
Qed.

Lemma NoDup_snoc {A : Type} (n : A) (l : list A) : NoDup l -> ~ In n l -> NoDup (l ++ [n]).
Proof.
  intros Hl Hn. apply NoDup_app; [exact Hl | repeat constructor; intros [] |].
  intros x Hx Hy. destruct Hy as [<-|[]]. contradiction.
Qed.

Lemma close_block_unique : pres (on_struct names_unique) close_block.
Proof.
  unfold close_block.
  apply bind_pres; [apply set_uniformBlock_pres | intros _].
  apply bind_pres; [apply gets_pres | intros b].
  apply bind_pres.
  - apply modify_pres. intros s Hs tg. unfold on_struct, on_model in *; simpl.
    rewrite target_list_push. apply Hs.
  - intros _. pres_tac.
Qed.

Lemma select_target_unique vertex token :
  pres (on_struct names_unique) (select_target vertex token).
Proof.
  unfold select_target. pres_tac. apply close_block_unique.
Qed.

Lemma add_variable_unique v var :
  pres (on_struct names_unique) (add_variable v var).
Proof.
  intros s Hs. unfold add_variable, record_seen, bind, modify, gets; simpl.
  destruct (uniformBlock s); [exact Hs|].
  destruct v as [tg|]; [|exact Hs].
  unfold on_struct, on_model in *; simpl in *.
  destruct (has_name (vname var) (target_list tg (shaderStruct (tool s)))) eqn:E;
    [exact Hs|].
  unfold modify_layout, modify_struct, modify; simpl. intros tg'.
  rewrite target_list_set. destruct (Target_eqb tg tg') eqn:Et; [|apply Hs].
  destruct tg, tg'; try discriminate; rewrite map_app; simpl;
    (apply NoDup_snoc; [apply (Hs TAttributes) || apply (Hs TVaryings) || apply (Hs TOuts) || apply (Hs TUniforms) | apply has_name_false; exact E]).
Qed.

Lemma scan_declaration_unique v : pres (on_struct names_unique) (scan_declaration v).
Proof.
  unfold scan_declaration. pres_tac.
  - intros s Hs. apply skip_precision_pres; exact Hs.
  - apply add_variable_unique.
Qed.

Lemma scan_body_unique vertex : pres (on_struct names_unique) (scan_body vertex).
Proof.
  unfold scan_body. pres_tac.
  - apply select_target_unique.
  - apply scan_declaration_unique.
Qed.

Lemma scan_loop_unique fuel vertex s :
  on_struct names_unique s -> on_struct names_unique (res_scan (scan_loop fuel vertex s)).
Proof.
  revert s; induction fuel as [|f IH]; intros s Hs; simpl; [exact Hs|].
  destruct (future (tok s)); [destruct (uniformBlock s); exact Hs|].
  pose proof (scan_body_unique vertex s Hs) as H.
  destruct (scan_body vertex s); simpl in *; auto.
Qed.

(** Parsing a stage keeps the names of each of the four top-level lists
    (attributes, varyings, outs, uniforms) pairwise distinct, whatever the
    outcome of the parse. *)
Lemma parse_keeps_names_unique (t : Tool) (tokens : list string) (vertex : bool) :
  names_unique (shaderStruct t) ->
  names_unique (shaderStruct (res_tool (parse t tokens vertex))).
Proof.
  intros H.
  exact (scan_loop_unique (S (length tokens)) vertex
           (mkScan t false empty_block (mkCursor [] tokens)) H).
Qed.

Lemma names_unique_empty n : names_unique (empty_struct n).
Proof. intros tg; destruct tg; constructor. Qed.

(** The members of one uniform block are appended without a name check:
    [uniform B { float a[1]; float a[2]; };] parses successfully into a
    block holding two members named [a]. *)
Lemma block_members_may_share_a_name :
  (exists s, parse (fresh_tool "s") tokens_block_dup false = RRet true s)
  /\ exists b,
       In b (uniformBlocks (shaderStruct (res_tool (parse (fresh_tool "s") tokens_block_dup false))))
       /\ ~ NoDup (map vname (members b)).
Proof.
  split.
  - eexists. vm_compute. reflexivity.
  - vm_compute. eexists. split; [left; reflexivity|].
    intros H. inversion H as [|x l Hx Hl]; subst. apply Hx. left; reflexivity.
Qed.

(** ** Layout record lifecycle *)

(** The model is still [ss0]. *)
Definition model_is (ss0 : ShaderStruct) : Scan -> Prop :=
  on_struct (fun ss => ss = ss0).

(** The model is still [ss0], or the layout record holds its defaults. *)
Definition unchanged_or_reset (ss0 : ShaderStruct) : Scan -> Prop :=
  on_model (fun ss l => ss = ss0 \/ l = Layout_default).

Lemma hoare_bind {A B} (P R Q : Scan -> Prop) (m : M A) (k : A -> M B) :
  hoare P m R -> (forall a, hoare R (k a) Q) -> (forall s, R s -> Q s) ->
  hoare P (bind m k) Q.
Proof.
  intros Hm Hk Hw s Hs. unfold bind.
  specialize (Hm s Hs). destruct (m s) eqn:E; simpl in *; auto.
  apply Hk; exact Hm.
Qed.

Lemma hoare_of_pres {A} (P Q : Scan -> Prop) (m : M A) :
  pres P m -> (forall s, P s -> Q s) -> hoare P m Q.
Proof. intros Hm Hw s Hs. apply Hw, Hm, Hs. Qed.

Lemma model_is_weaken ss0 s : model_is ss0 s -> unchanged_or_reset ss0 s.
Proof. intros H; left; exact H. Qed.

Lemma close_block_resets ss0 : hoare (model_is ss0) close_block (unchanged_or_reset ss0).
Proof.
  intros s _. right.
  unfold close_block, bind, modify, gets, modify_struct, modify_layout, next,
    core_assert_always; simpl.
  destruct (future (tok s)) as [|t r]; simpl; [reflexivity|].
  destruct (String.eqb t ";"); reflexivity.
Qed.

Lemma select_target_resets ss0 vertex token :
  hoare (model_is ss0) (select_target vertex token) (unchanged_or_reset ss0).
Proof.
  unfold select_target.
  destruct (String.eqb token "$in"); [apply hoare_of_pres; [apply ret_pres | apply model_is_weaken]|].
  destruct (String.eqb token "$out"); [apply hoare_of_pres; [apply ret_pres | apply model_is_weaken]|].
  destruct (String.eqb token "layout").
  { apply (hoare_bind _ (model_is ss0)); [apply parseLayout_pres | | apply model_is_weaken].
    intros _. apply hoare_of_pres; [apply ret_pres | apply model_is_weaken]. }
  destruct (String.eqb token "buffer"); [apply hoare_of_pres; [apply ret_pres | apply model_is_weaken]|].
  destruct (String.eqb token "uniform"); [apply hoare_of_pres; [apply ret_pres | apply model_is_weaken]|].
  apply (hoare_bind _ (model_is ss0)); [apply gets_pres | | apply model_is_weaken].
  intros ub. destruct ub.
  - destruct (String.eqb token "}").
    + apply (hoare_bind _ (unchanged_or_reset ss0)); [apply close_block_resets | | auto].
      intros _. apply ret_pres.
    + apply (hoare_bind _ (model_is ss0)); [apply prev_pres | | apply model_is_weaken].
      intros _. apply hoare_of_pres; [apply ret_pres | apply model_is_weaken].
  - apply hoare_of_pres; [apply ret_pres | apply model_is_weaken].
Qed.

Lemma add_variable_resets ss0 v var :
  pres (unchanged_or_reset ss0) (add_variable v var).
Proof.
  intros s Hs. unfold add_variable, record_seen, bind, modify, gets, set_tool; simpl.
  destruct (uniformBlock s); [exact Hs|].
  destruct v as [tg|]; [|exact Hs]. cbn [tool shaderStruct].
  destruct (has_name (vname var) (target_list tg (shaderStruct (tool s)))); [exact Hs|].
  right; reflexivity.
Qed.

Lemma scan_declaration_resets ss0 v :
  pres (unchanged_or_reset ss0) (scan_declaration v).
Proof.
  unfold scan_declaration. pres_tac.
  - intros s Hs. apply skip_precision_pres; exact Hs.
  - apply add_variable_resets.
Qed.

Lemma scan_body_resets ss0 vertex :
  hoare (model_is ss0) (scan_body vertex) (unchanged_or_reset ss0).
Proof.
  unfold scan_body.
  apply (hoare_bind _ (model_is ss0)); [apply next_pres | | apply model_is_weaken].
  intros token.
  apply (hoare_bind _ (unchanged_or_reset ss0)); [apply select_target_resets | | auto].
  intros v. apply scan_declaration_resets.
Qed.

(** A round of the scanner that changes the model leaves the layout record
    at its defaults. *)
Lemma round_changing_model_resets_layout vertex s :
  shaderStruct (tool (res_scan (scan_body vertex s))) <> shaderStruct (tool s) ->
  layout (tool (res_scan (scan_body vertex s))) = Layout_default.
Proof.
  intros Hne.
  destruct (scan_body_resets (shaderStruct (tool s)) vertex s eq_refl) as [H|H];
    [contradiction | exact H].
Qed.


(** ** Stage routing of the markers *)

(** One round over [marker ty name ...] outside a block, when [marker]
    selects the list [tg] and [name] is new there: the declaration is
    appended to [tg]. *)
Lemma declaration_routed (vertex : bool) (s : Scan) (ty name : string) (t : VarType)
    (rest : list string) (marker : string) (tg : Target) :
  uniformBlock s = false ->
  getType_from cTypes ty = Some t -> is_precision ty = false -> name <> "{" ->
  hd_error rest <> Some "[" ->
  future (tok s) = marker :: ty :: name :: rest ->
  (forall s1, select_target vertex marker s1 = ROk (Some tg) s1) ->
  has_name name (target_list tg (shaderStruct (tool s))) = false ->
  exists s', scan_body vertex s = ROk tt s' /\
    shaderStruct (tool s') =
      set_target_list tg (target_list tg (shaderStruct (tool s)) ++ [mkVariable t name 0])%list
        (shaderStruct (tool s)).
Proof.
  intros Hub Hty Hp Hn Hr Hf Hsel Hh.
  unfold scan_body, bind at 1, next. rewrite Hf. cbn [future tok set_tok].
  unfold bind at 1. rewrite Hsel.
  unfold scan_declaration, bind, gets, hasNext, next; cbn.
  rewrite Hp. cbn.
  rewrite (proj2 (String.eqb_neq _ _) Hn).
  unfold getType. rewrite Hty. cbn.
  destruct rest as [|r0 rest']; cbn.
  - unfold add_variable, record_seen, bind, modify, gets; cbn.
    rewrite Hub. cbv beta. unfold set_tool, set_tok; cbn [tool shaderStruct].
    rewrite Hh. cbn. eexists; split; reflexivity.
  - assert (E : String.eqb r0 "[" = false).
    { apply String.eqb_neq. intros ->. apply Hr. reflexivity. }
    rewrite E. unfold add_variable, record_seen, bind, modify, gets; cbn.
    rewrite Hub. cbv beta. unfold set_tool, set_tok; cbn [tool shaderStruct].
    rewrite Hh. cbn. eexists; split; reflexivity.
Qed.

(** C6: outside a uniform block, a declaration [ty name ...] after [$out]
    is appended to [varyings] in the vertex stage and to [outs] in any other
    stage; after [$in] it is appended to [attributes] in the vertex stage,
    while in any other stage the round ends without touching the model. *)
Theorem stage_routing (s : Scan) (ty name : string) (t : VarType) (rest : list string) :
  uniformBlock s = false ->
  getType_from cTypes ty = Some t -> is_precision ty = false -> name <> "{" ->
  hd_error rest <> Some "[" ->
  (forall vertex : bool,
     future (tok s) = "$out" :: ty :: name :: rest ->
     let tg := if vertex then TVaryings else TOuts in
     has_name name (target_list tg (shaderStruct (tool s))) = false ->
     exists s', scan_body vertex s = ROk tt s' /\
       shaderStruct (tool s') =
         set_target_list tg (target_list tg (shaderStruct (tool s)) ++ [mkVariable t name 0])%list
           (shaderStruct (tool s))) /\
  (future (tok s) = "$in" :: ty :: name :: rest ->
   has_name name (attributes (shaderStruct (tool s))) = false ->
   exists s', scan_body true s = ROk tt s' /\
     shaderStruct (tool s') =
       set_target_list TAttributes (attributes (shaderStruct (tool s)) ++ [mkVariable t name 0])%list
         (shaderStruct (tool s))) /\
  (future (tok s) = "$in" :: ty :: name :: rest ->
   exists s', scan_body false s = RCont s' /\ shaderStruct (tool s') = shaderStruct (tool s)).
Proof.
  intros Hub Hty Hp Hn Hr. split; [|split].
  - intros vertex Hf tg Hh.
    apply (declaration_routed vertex s ty name t rest "$out" tg Hub Hty Hp Hn Hr Hf); [|exact Hh].
    intros s1. unfold tg. destruct vertex; reflexivity.
  - intros Hf Hh.
    exact (declaration_routed true s ty name t rest "$in" TAttributes Hub Hty Hp Hn Hr Hf
             (fun s1 => eq_refl) Hh).
  - intros Hf. unfold scan_body, bind at 1, next. rewrite Hf. cbn.
    unfold scan_declaration, bind, gets. cbn. rewrite Hub. cbn.
    eexists; split; reflexivity.
Qed.

Lemma stage_routing_witness :
  (exists s', scan_body true (routing_scan ["$out"; "vec4"; "o"; ";"]) = ROk tt s' /\
     varyings (shaderStruct (tool s')) = [mkVariable VEC4 "o" 0]) /\
  (exists s', scan_body false (routing_scan ["$in"; "vec4"; "o"; ";"]) = RCont s' /\
     shaderStruct (tool s') = empty_struct "s").
Proof.
  split.
  - destruct (proj1 (stage_routing (routing_scan ["$out"; "vec4"; "o"; ";"]) "vec4" "o" VEC4 [";"]
                 eq_refl eq_refl eq_refl ltac:(discriminate) ltac:(discriminate)) true eq_refl eq_refl)
      as [s' [H1 H2]].
    exists s'. split; [exact H1|]. rewrite H2. reflexivity.
  - exact (proj2 (proj2 (stage_routing (routing_scan ["$in"; "vec4"; "o"; ";"]) "vec4" "o" VEC4 [";"]
                 eq_refl eq_refl eq_refl ltac:(discriminate) ltac:(discriminate))) eq_refl).
Defined.

(** ** Array sizes *)

(** C7: in [uniform float arr [ x ] ;] the size token [x] is converted with
    [toInt], and a size that converts to 0 becomes -1 while any other stays
    as it is; but the unsized form [uniform float arr [ ] ;] reads [ ] ] as
    the size token and then asserts that [;] is [ ] ], which aborts. *)
Theorem unsized_array_aborts :
  (exists s', parse (fresh_tool "s") ["uniform"; "float"; "arr"; "["; "]"; ";"] false = RAbort s') /\
  (forall x, exists s',
     parse (fresh_tool "s") ["uniform"; "float"; "arr"; "["; x; "]"; ";"] false = RRet true s' /\
     uniforms (shaderStruct (tool s')) =
       [mkVariable FLOAT "arr" (if toInt x =? 0 then -1 else toInt x)]) /\
  (exists s', parse (fresh_tool "s") ["uniform"; "float"; "arr"; "["; "n"; "]"; ";"] false = RRet true s' /\
     uniforms (shaderStruct (tool s')) = [mkVariable FLOAT "arr" (-1)]) /\
  (exists s', parse (fresh_tool "s") ["uniform"; "float"; "arr"; "["; "3"; "]"; ";"] false = RRet true s' /\
     uniforms (shaderStruct (tool s')) = [mkVariable FLOAT "arr" 3]).
Proof.
  split; [eexists; reflexivity|].
  split; [intros x; eexists; split; reflexivity|].
  split; eexists; split; reflexivity.
Qed.

(** ** Closing a uniform block *)

(** C8 (counterexample): [uniform B { } ;] appends a block [B] with no
    members, and the parse succeeds. *)
Lemma empty_uniform_block_appended :
  exists s', parse (fresh_tool "s") ["uniform"; "B"; "{"; "}"; ";"] false = RRet true s' /\
    uniformBlocks (shaderStruct (tool s')) = [mkUniformBlock "B" []].
Proof.
  eexists; split; reflexivity.
Qed.

(** C8: inside a uniform block, a round over [} ; rest] appends the block
    being read, whatever its members, to [uniformBlocks], leaves the block,
    resets the layout and goes on with [rest]; no check on the members is
    made. *)
Theorem close_block_appends (vertex : bool) (s : Scan) (rest : list string) :
  uniformBlock s = true -> future (tok s) = "}" :: ";" :: rest ->
  exists s', scan_body vertex s = RCont s' /\
    uniformBlocks (shaderStruct (tool s')) = (uniformBlocks (shaderStruct (tool s)) ++ [block s])%list /\
    uniformBlock s' = false /\ layout (tool s') = Layout_default /\ future (tok s') = rest.
Proof.
  intros Hub Hf.
  unfold scan_body, bind at 1, next. rewrite Hf. cbn.
  unfold select_target, gets, bind. cbn. rewrite Hub. cbn.
  unfold close_block, modify, bind, gets, modify_struct, modify_layout, next. cbn.
  unfold set_tool, set_tok, set_uniformBlock, set_layout; cbn.
  destruct (shaderStruct (tool s)) as [n f u ub a v o]. cbn.
  eexists; split; [reflexivity|]. cbn. auto.
Qed.

Lemma close_block_appends_witness :
  exists s', scan_body false closing_scan = RCont s' /\
    uniformBlocks (shaderStruct (tool s')) = [mkUniformBlock "B" []].
Proof.
  destruct (close_block_appends false closing_scan [] eq_refl eq_refl) as (s' & H1 & H2 & _).
  exists s'. split; [exact H1|]. rewrite H2. reflexivity.
Defined.

(** ** Generated class name: theorems *)

Lemma string_app_assoc (a b c : string) : a ++ (b ++ c) = (a ++ b) ++ c.
Proof. induction a; simpl; [reflexivity | now rewrite IHa]. Qed.

Lemma string_app_nil_r (a : string) : a ++ "" = a.
Proof. induction a; simpl; [reflexivity | now rewrite IHa]. Qed.

Lemma split_keep_shader (x : string) :
  exists pre p, split_keep (x ++ "Shader") = app pre [p ++ "Shader"].
Proof.
  induction x as [|c r IH].
  - exists [], "". reflexivity.
  - destruct IH as (pre & p & E). simpl. rewrite E.
    destruct (Ascii.eqb c "_").
    + exists ("" :: pre), p. reflexivity.
    + destruct pre as [|a pre'].
      * exists [], (String c p). reflexivity.
      * exists (String c a :: pre'), p. reflexivity.
Qed.

Lemma fold_cond_ext (f g : string -> bool) (l : list string) (acc : string) :
  (forall n, In n l -> f n = g n) ->
  fold_left (fun a n => if f n then a ++ capitalize n else a) l acc =
  fold_left (fun a n => if g n then a ++ capitalize n else a) l acc.
Proof.
  revert acc; induction l as [|n l IH]; intros acc H; simpl; [reflexivity|].
  rewrite (H n (or_introl eq_refl)). apply IH. intros m Hm. apply H. now right.
Qed.

Lemma fold_filter_nonempty (l : list string) (acc : string) :
  fold_left (fun a n => if (1 <? String.length n)%nat then a ++ capitalize n else a)
    (filter (fun p => negb (String.eqb p "")) l) acc =
  fold_left (fun a n => if (1 <? String.length n)%nat then a ++ capitalize n else a) l acc.
Proof.
  revert acc; induction l as [|n l IH]; intros acc; simpl; [reflexivity|].
  destruct n; simpl; apply IH.
Qed.

Lemma fold_as_right (l : list string) (acc : string) :
  fold_left (fun a n => if (1 <? String.length n)%nat then a ++ capitalize n else a) l acc =
  acc ++ fold_right String.append "" (map capitalize (filter (fun p => (1 <? String.length p)%nat) l)).
Proof.
  revert acc; induction l as [|n l IH]; intros acc; simpl.
  - now rewrite string_app_nil_r.
  - rewrite IH. destruct (1 <? String.length n)%nat; simpl; [|reflexivity].
    now rewrite string_app_assoc.
Qed.

Lemma drop_empty_parts (l : list string) :
  fold_right String.append "" (map capitalize (filter (fun p => negb (String.length p =? 1)%nat) l)) =
  fold_right String.append "" (map capitalize (filter (fun p => (1 <? String.length p)%nat) l)).
Proof.
  induction l as [|n l IH]; simpl; [reflexivity|].
  destruct n as [|c [|c' r]]; simpl; rewrite IH; reflexivity.
Qed.

Lemma filter_snoc_nonempty (pre : list string) (q : string) :
  q <> "" ->
  filter (fun p => negb (String.eqb p "")) (app pre [q]) =
  app (filter (fun p => negb (String.eqb p "")) pre) [q].
Proof.
  intros Hq. rewrite filter_app. simpl.
  destruct (String.eqb q "") eqn:E; [apply String.eqb_eq in E; contradiction|reflexivity].
Qed.

Lemma length_shader (p : string) : (6 <= String.length (p ++ "Shader"))%nat.
Proof. induction p; simpl; lia. Qed.

(** C10: for every shader name, the name derivation of [generateSrc]
    computes the same class/file name as the reading of the spec; e.g.
    [color_instanced] gives [ColorInstancedShader] and [a_b] gives [BShader]. *)
Theorem shader_filename_spec (base : string) :
  shader_filename base = claim_filename base /\
  shader_filename "color_instanced" = "ColorInstancedShader" /\
  shader_filename "a_b" = "BShader".
Proof.
  split; [|split; reflexivity].
  unfold shader_filename, claim_filename, splitString.
  destruct (split_keep_shader base) as (pre & p & E). rewrite E.
  assert (Hq : p ++ "Shader" <> "").
  { intros H. pose proof (length_shader p) as L. rewrite H in L. simpl in L. lia. }
  rewrite (filter_snoc_nonempty pre _ Hq).
  set (D := app (filter (fun p0 => negb (String.eqb p0 "")) pre) [p ++ "Shader"]).
  assert (Hc : forall n, In n D ->
     ((1 <? String.length n)%nat || (List.length D <? 2)%nat) = (1 <? String.length n)%nat).
  { intros n Hn. destruct (List.length D <? 2)%nat eqn:L; [|apply orb_false_r].
    apply Nat.ltb_lt in L. unfold D in *. rewrite length_app in L. simpl in L.
    assert (F : filter (fun p0 => negb (String.eqb p0 "")) pre = []).
    { destruct (filter _ pre); [reflexivity| simpl in L; lia]. }
    rewrite F in Hn. simpl in Hn. destruct Hn as [<-|[]].
    pose proof (length_shader p). rewrite orb_true_r. symmetry. apply Nat.ltb_lt. lia. }
  rewrite (fold_cond_ext _ (fun n => (1 <? String.length n)%nat) D "" Hc).
  unfold D. rewrite <- (filter_snoc_nonempty pre _ Hq).
  rewrite fold_filter_nonempty, fold_as_right. simpl.
  destruct (List.length (app pre [p ++ "Shader"]) <? 2)%nat eqn:L.
  - apply Nat.ltb_lt in L. rewrite length_app in L. simpl in L.
    destruct pre; [|simpl in L; lia]. simpl.
    pose proof (length_shader p).
    destruct (1 <? String.length (p ++ "Shader"))%nat eqn:L2; [|apply Nat.ltb_ge in L2; lia].
    reflexivity.
  - rewrite drop_empty_parts. reflexivity.
Qed.

(** ** Type table and setter names: theorems *)

Lemma getType_from_sound (rows : list Types) (s : string) (t : VarType) :
  getType_from rows s = Some t -> exists r, In r rows /\ glsltype r = s /\ type r = t.
Proof.
  induction rows as [|r rows IH]; cbn; [discriminate|].
  destruct (String.eqb s (glsltype r)) eqn:E.
  - intros H; injection H as <-. apply String.eqb_eq in E.
    exists r. auto.
  - intros H. destruct (IH H) as (r' & ? & ? & ?). exists r'. auto.
Qed.

(** The table [getType] reads: the GLSL name of every row of [cTypes] is
    recognised and gives that row's type; every token [getType] recognises
    is the GLSL name of a row and gives that row's type; no two rows share a
    type or a GLSL name. *)
Lemma getType_table_bijection :
  (forall r, In r cTypes -> getType_from cTypes (glsltype r) = Some (type r)) /\
  (forall s t, getType_from cTypes s = Some t ->
     exists r, In r cTypes /\ glsltype r = s /\ type r = t) /\
  NoDup (map type cTypes) /\ NoDup (map glsltype cTypes).
Proof.
  split; [|split; [exact (getType_from_sound cTypes)|]].
  - intros r H. repeat (destruct H as [<-|H]; [reflexivity|]). destruct H.
  - split; cbn; repeat constructor; intros H; repeat destruct H as [H|H];
      try discriminate H; exact H.
Qed.

Lemma layoutPrimitiveType_from_sound rows tok :
  layoutPrimitiveType_from rows tok = PrimNone \/
  In (Some tok, layoutPrimitiveType_from rows tok) rows.
Proof.
  induction rows as [|[[n|] p] rows IH]; cbn; [left; reflexivity| |].
  - destruct (String.eqb tok n) eqn:E.
    + apply String.eqb_eq in E. subst. right. left. reflexivity.
    + destruct IH as [IH|IH]; [left|right; right]; exact IH.
  - destruct IH as [IH|IH]; [left|right; right]; exact IH.
Qed.

(** [layoutPrimitiveType] inverts [PrimitiveTypeStr]: a listed name gives
    its primitive type, and a token that gives a primitive type other than
    none is the listed name of that type. *)
Lemma layoutPrimitiveType_roundtrip (p : PrimitiveType) (name tok : string) :
  (In (Some name, p) PrimitiveTypeStr -> layoutPrimitiveType name = p) /\
  (layoutPrimitiveType tok <> PrimNone -> In (Some tok, layoutPrimitiveType tok) PrimitiveTypeStr).
Proof.
  split.
  - cbn. intros H. repeat destruct H as [H|H]; try discriminate; try contradiction;
      injection H as <- <-; reflexivity.
  - intros H. destruct (layoutPrimitiveType_from_sound PrimitiveTypeStr tok) as [E|E];
      [contradiction|exact E].
Qed.
(** For every type, an element count above 1 selects a setter suffix ending
    in [v]; a count of 1 or less selects the same suffix as 1, which does
    not end in [v]. *)
Lemma uniformSetterPostfix_array_suffix (t : VarType) (a : Z) :
  (1 < a -> last_char (uniformSetterPostfix t a) = Some "v"%char) /\
  (a <= 1 -> uniformSetterPostfix t a = uniformSetterPostfix t 1 /\
             last_char (uniformSetterPostfix t a) <> Some "v"%char).
Proof.
  split; intros H.
  - apply Z.ltb_lt in H. destruct t; cbn [uniformSetterPostfix]; rewrite H; reflexivity.
  - assert (E : (1 <? a) = false) by (apply Z.ltb_ge; lia).
    destruct t; cbn [uniformSetterPostfix]; rewrite E; split; try reflexivity; discriminate.
Qed.

(** Two vector or matrix types (at least 2 components) with the same
    number of components get the same setter suffix, whatever their scalar
    kind. *)
Lemma uniformSetterPostfix_by_components (t t' : VarType) (a : Z) :
  2 <= getComponents t -> getComponents t = getComponents t' ->
  uniformSetterPostfix t a = uniformSetterPostfix t' a.
Proof.
  intros H1 H2.
  destruct t; cbv in H1; try (exfalso; apply H1; reflexivity);
  destruct t'; cbv in H2; try discriminate; reflexivity.
Qed.

(** The [setUniform] call of a generated setter: a sized array [n > 1]
    uses a [v] suffix and passes [n]; a size of exactly 1 passes [, 1]
    with a suffix not ending in [v]; an unsized array (-1) uses a [v]
    suffix and passes [amount]; any other size gives the scalar call. *)
Lemma setter_call_array_forms (t : VarType) (name : string) :
  (forall n, 1 < n -> exists sfx,
     setter_call (mkVariable t name n) =
       TAB ++ TAB ++ "setUniform" ++ sfx ++ "(location, " ++ name ++ ", " ++ Z_to_string n ++ ");" ++ NL
     /\ last_char sfx = Some "v"%char) /\
  (exists sfx,
     setter_call (mkVariable t name 1) =
       TAB ++ TAB ++ "setUniform" ++ sfx ++ "(location, " ++ name ++ ", 1);" ++ NL
     /\ last_char sfx <> Some "v"%char) /\
  (exists sfx,
     setter_call (mkVariable t name (-1)) =
       TAB ++ TAB ++ "setUniform" ++ sfx ++ "(location, " ++ name ++ ", amount);" ++ NL
     /\ last_char sfx = Some "v"%char) /\
  (forall n, n <= 0 -> n <> -1 -> exists sfx,
     setter_call (mkVariable t name n) =
       TAB ++ TAB ++ "setUniform" ++ sfx ++ "(location, " ++ name ++ ");" ++ NL
     /\ last_char sfx <> Some "v"%char).
Proof.
  split; [|split; [|split]].
  - intros n Hn. exists (uniformSetterPostfix t n). split.
    + unfold setter_call; cbn [vtype vname arraySize].
      replace (n =? -1) with false by (symmetry; apply Z.eqb_neq; lia).
      replace (0 <? n) with true by (symmetry; apply Z.ltb_lt; lia).
      reflexivity.
    + apply (proj1 (uniformSetterPostfix_array_suffix t n)). exact Hn.
  - exists (uniformSetterPostfix t 1). split; [reflexivity|].
    apply (proj2 (uniformSetterPostfix_array_suffix t 1)). lia.
  - exists (uniformSetterPostfix t 2). split; [reflexivity|].
    apply (proj1 (uniformSetterPostfix_array_suffix t 2)). lia.
  - intros n H1 H2. exists (uniformSetterPostfix t n). split.
    + unfold setter_call; cbn [vtype vname arraySize].
      replace (n =? -1) with false by (symmetry; apply Z.eqb_neq; lia).
      replace (0 <? n) with false by (symmetry; apply Z.ltb_ge; lia).
      reflexivity.
    + apply (proj2 (uniformSetterPostfix_array_suffix t n)). lia.
Qed.

Lemma int32_id (x : Z) : 0 <= x < 2 ^ 31 -> int32 x = x.
Proof.
  intros H. unfold int32. rewrite Z.mod_small by lia.
  destruct (2 ^ 31 <=? x) eqn:E; [apply Z.leb_le in E; lia | reflexivity].
Qed.

(** The std140 size of an array of [n] elements ([0 < n < 2^24]) is [n]
    times the size of one element; a size of 0 or less counts as one
    element. *)
Lemma std140Size_array_scales (t : VarType) (name : string) (n : Z) :
  (0 < n < 2 ^ 24 -> std140Size (mkVariable t name n) = n * std140Size (mkVariable t name 0)) /\
  (n <= 0 -> std140Size (mkVariable t name n) = std140Size (mkVariable t name 0)).
Proof.
  unfold std140Size; cbn [vtype arraySize]. split; intros H.
  - replace (0 <? n) with true by (symmetry; apply Z.ltb_lt; lia).
    destruct t; cbn - [int32 to_size_t Z.pow];
    repeat match goal with
           | |- context [int32 (Zpos ?c)] => replace (int32 (Zpos c)) with (Zpos c) by reflexivity
           end;
    rewrite int32_id by lia; unfold to_size_t; rewrite !Z.mod_small by lia; lia.
  - replace (0 <? n) with false by (symmetry; apply Z.ltb_ge; lia). reflexivity.
Qed.

(** ** Layout qualifier lists: theorems *)

Lemma close_paren_ignored : layout_key ")" = KIgnored.
Proof. reflexivity. Qed.

Ltac step_loop Hf Ek :=
  cbn [layout_loop]; unfold bind, hasNext, gets, next, modify_layout, modify, core_assert_always, ret;
  repeat (rewrite Hf; cbn - [layout_key String.eqb]); rewrite Ek.

Lemma layout_loop_quals (qs : list Qual) : forall (fuel : nat) (s : Scan) (tail : list string),
  forallb qual_ok qs = true ->
  future (tok s) = (flat_map qual_tokens qs ++ tail)%list ->
  (length qs <= fuel)%nat ->
  exists s', layout_loop fuel s = layout_loop (fuel - length qs) s' /\
    layout (tool s') = fold_left qual_apply qs (layout (tool s)) /\
    shaderStruct (tool s') = shaderStruct (tool s) /\
    future (tok s') = tail.
Proof.
  induction qs as [|q qs IH]; intros fuel s tail Hok Hf Hl.
  - exists s. rewrite Nat.sub_0_r. auto.
  - cbn in Hok. apply andb_prop in Hok as [Hq Hok].
    destruct fuel as [|f]; [cbn in Hl; lia|].
    cbn [length] in Hl |- *. rewrite Nat.sub_succ.
    destruct q as [k|k v|k]; cbn in Hq, Hf.
    + destruct (layout_key k) as [g| |] eqn:Ek; try discriminate.
      assert (Hk : String.eqb k ")" = false).
      { apply String.eqb_neq. intros ->. rewrite close_paren_ignored in Ek. discriminate. }
      set (s1 := set_tool (set_layout (g (layout (tool s))) (tool s))
                   (set_tok (mkCursor (k :: past (tok s)) (flat_map qual_tokens qs ++ tail)) s)).
      assert (Step : layout_loop (S f) s = layout_loop f s1).
      { step_loop Hf Ek. rewrite Hk. reflexivity. }
      destruct (IH f s1 tail Hok eq_refl ltac:(lia)) as (s' & E1 & E2 & E3 & E4).
      exists s'. rewrite Step. split; [exact E1|].
      split; [rewrite E2; cbn; rewrite Ek; reflexivity|]. split; [exact E3|exact E4].
    + destruct (layout_key k) as [|g|] eqn:Ek; try discriminate.
      assert (Hk : String.eqb k ")" = false).
      { apply String.eqb_neq. intros ->. rewrite close_paren_ignored in Ek. discriminate. }
      set (s1 := set_tool (set_layout (g v (layout (tool s))) (tool s))
                   (set_tok (mkCursor (v :: "=" :: k :: past (tok s)) (flat_map qual_tokens qs ++ tail)) s)).
      assert (Step : layout_loop (S f) s = layout_loop f s1).
      { step_loop Hf Ek. rewrite Hk. reflexivity. }
      destruct (IH f s1 tail Hok eq_refl ltac:(lia)) as (s' & E1 & E2 & E3 & E4).
      exists s'. rewrite Step. split; [exact E1|].
      split; [rewrite E2; cbn; rewrite Ek; reflexivity|]. split; [exact E3|exact E4].
    + destruct (layout_key k) eqn:Ek; try discriminate.
      assert (Hk : String.eqb k ")" = false) by (apply negb_true_iff; exact Hq).
      set (s1 := set_tok (mkCursor (k :: past (tok s)) (flat_map qual_tokens qs ++ tail)) s).
      assert (Step : layout_loop (S f) s = layout_loop f s1).
      { step_loop Hf Ek. rewrite Hk. reflexivity. }
      destruct (IH f s1 tail Hok eq_refl ltac:(lia)) as (s' & E1 & E2 & E3 & E4).
      exists s'. rewrite Step. split; [exact E1|].
      split; [exact E2|]. split; [exact E3|exact E4].
Qed.

Lemma quals_length (qs : list Qual) :
  (length qs <= length (flat_map qual_tokens qs))%nat.
Proof.
  induction qs as [|[] qs IH]; cbn; lia.
Qed.

Lemma parseLayout_closed (qs : list Qual) (rest : list string) (s : Scan) :
  forallb qual_ok qs = true ->
  future (tok s) = "(" :: flat_map qual_tokens qs ++ ")" :: rest ->
  exists s', parseLayout s = ROk true s' /\
    layout (tool s') = fold_left qual_apply qs (layout (tool s)) /\
    shaderStruct (tool s') = shaderStruct (tool s) /\ future (tok s') = rest.
Proof.
  intros Hok Hf. pose proof (quals_length qs) as Hlen.
  unfold parseLayout, bind, hasNext, gets, next. repeat (rewrite Hf; cbn - [layout_loop flat_map]).
  set (s1 := set_tok (mkCursor ("(" :: past (tok s)) (flat_map qual_tokens qs ++ ")" :: rest)) s).
  destruct (layout_loop_quals qs (length (flat_map qual_tokens qs ++ ")" :: rest)) s1 (")" :: rest)
              Hok eq_refl) as (s' & E1 & E2 & E3 & E4).
  { rewrite length_app. cbn. lia. }
  rewrite E1.
  destruct (length (flat_map qual_tokens qs ++ ")" :: rest) - length qs)%nat as [|g] eqn:L.
  { rewrite length_app in L. cbn in L. lia. }
  cbn [layout_loop]. unfold bind, hasNext, gets, next. repeat (rewrite E4; cbn).
  eexists; split; [reflexivity|]. cbn. rewrite E2, E3. auto.
Qed.

(** A [layout(...)] list of well-formed qualifiers applies them to the
    Layout record from left to right and consumes the closing [)]; if the
    stream ends before the [)], the qualifiers read so far are still applied
    and [parseLayout] returns false. The interface model is not touched. *)
Lemma parseLayout_applies_qualifiers (qs : list Qual) (rest : list string) (s : Scan) :
  forallb qual_ok qs = true ->
  (future (tok s) = "(" :: flat_map qual_tokens qs ++ ")" :: rest ->
   exists s', parseLayout s = ROk true s' /\
     layout (tool s') = fold_left qual_apply qs (layout (tool s)) /\
     shaderStruct (tool s') = shaderStruct (tool s) /\ future (tok s') = rest) /\
  (future (tok s) = "(" :: flat_map qual_tokens qs ->
   exists s', parseLayout s = ROk false s' /\
     layout (tool s') = fold_left qual_apply qs (layout (tool s)) /\
     shaderStruct (tool s') = shaderStruct (tool s) /\ future (tok s') = []).
Proof.
  intros Hok. pose proof (quals_length qs) as Hlen. split; intros Hf.
  - exact (parseLayout_closed qs rest s Hok Hf).
  - unfold parseLayout, bind, hasNext, gets, next. repeat (rewrite Hf; cbn - [layout_loop flat_map]).
    set (s1 := set_tok (mkCursor ("(" :: past (tok s)) (flat_map qual_tokens qs)) s).
    destruct (layout_loop_quals qs (length (flat_map qual_tokens qs)) s1 []
                Hok (eq_sym (app_nil_r _)) Hlen) as (s' & E1 & E2 & E3 & E4).
    rewrite E1. exists s'.
    destruct (length (flat_map qual_tokens qs) - length qs)%nat as [|g];
      cbn [layout_loop]; unfold bind, hasNext, gets; try rewrite E4; cbn; rewrite E2, E3; auto.
Qed.

(** [parseLayout] returns false, consuming the token and leaving the tool
    unchanged, when the next token is not [(]; it returns false on an empty
    stream; and a key that takes a value but is not followed by [=] aborts
    the run. *)
Lemma parseLayout_edge_cases :
  (forall (t : string) (rest : list string) (s : Scan), t <> "(" -> future (tok s) = t :: rest ->
     exists s', parseLayout s = ROk false s' /\ tool s' = tool s /\ future (tok s') = rest) /\
  (forall s : Scan, future (tok s) = [] -> parseLayout s = ROk false s) /\
  (forall (qs : list Qual) (k : string) (g : string -> Layout -> Layout) (rest : list string) (s : Scan),
     forallb qual_ok qs = true -> layout_key k = KAssign g -> hd_error rest <> Some "=" ->
     future (tok s) = "(" :: flat_map qual_tokens qs ++ k :: rest ->
     exists s', parseLayout s = RAbort s').
Proof.
  split; [|split].
  - intros t rest s Ht Hf. unfold parseLayout, bind, hasNext, gets, next.
    repeat (rewrite Hf; cbn - [String.eqb]).
    rewrite (proj2 (String.eqb_neq _ _) Ht). cbn. eexists; split; [reflexivity|]. auto.
  - intros s Hf. unfold parseLayout, bind, hasNext, gets. rewrite Hf. reflexivity.
  - intros qs k g rest s Hok Ek Hr Hf. pose proof (quals_length qs) as Hlen.
    unfold parseLayout, bind, hasNext, gets, next. repeat (rewrite Hf; cbn - [layout_loop flat_map]).
    set (s1 := set_tok (mkCursor ("(" :: past (tok s)) (flat_map qual_tokens qs ++ k :: rest)) s).
    destruct (layout_loop_quals qs (length (flat_map qual_tokens qs ++ k :: rest)) s1 (k :: rest)
                Hok eq_refl) as (s' & E1 & _ & _ & E4).
    { rewrite length_app. cbn. lia. }
    rewrite E1.
    destruct (length (flat_map qual_tokens qs ++ k :: rest) - length qs)%nat as [|f] eqn:L.
    { rewrite length_app in L. cbn in L. lia. }
    cbn [layout_loop]. unfold bind, hasNext, gets, next, core_assert_always, ret.
    repeat (rewrite E4; cbn - [layout_key String.eqb]). rewrite Ek.
    destruct rest as [|e rest']; cbn.
    + eexists; reflexivity.
    + assert (He : String.eqb e "=" = false).
      { apply String.eqb_neq. intros ->. apply Hr. reflexivity. }
      rewrite He. cbn. eexists; reflexivity.
Qed.

(** ** Parsing only appends: theorems *)

Section ScanInvariant.

Variable Q : ShaderStruct -> Prop.
Hypothesis Q_push : forall b ss, Q ss -> Q (push_uniformBlock b ss).
Hypothesis Q_add : forall tg var ss, Q ss ->
  has_name (vname var) (target_list tg ss) = false ->
  Q (set_target_list tg (target_list tg ss ++ [var])%list ss).

Lemma close_block_inv : pres (on_struct Q) close_block.
Proof.
  unfold close_block.
  apply bind_pres; [apply set_uniformBlock_pres | intros _].
  apply bind_pres; [apply gets_pres | intros b].
  apply bind_pres.
  - apply modify_pres. intros s Hs. unfold on_struct, on_model in *; simpl.
    apply Q_push. exact Hs.
  - intros _. pres_tac.
Qed.

Lemma select_target_inv vertex token : pres (on_struct Q) (select_target vertex token).
Proof. unfold select_target. pres_tac. apply close_block_inv. Qed.

Lemma add_variable_inv v var : pres (on_struct Q) (add_variable v var).
Proof.
  intros s Hs. unfold add_variable, record_seen, bind, modify, gets; simpl.
  destruct (uniformBlock s); [exact Hs|].
  destruct v as [tg|]; [|exact Hs].
  unfold on_struct, on_model in *; simpl in *.
  destruct (has_name (vname var) (target_list tg (shaderStruct (tool s)))) eqn:E;
    [exact Hs|].
  unfold modify_layout, modify_struct, modify; simpl.
  apply Q_add; [exact Hs|exact E].
Qed.

Lemma scan_body_inv vertex : pres (on_struct Q) (scan_body vertex).
Proof.
  unfold scan_body, scan_declaration. pres_tac.
  - apply select_target_inv.
  - intros s Hs. apply skip_precision_pres; exact Hs.
  - apply add_variable_inv.
Qed.

Lemma scan_loop_inv fuel vertex s :
  on_struct Q s -> on_struct Q (res_scan (scan_loop fuel vertex s)).
Proof.
  revert s; induction fuel as [|f IH]; intros s Hs; simpl; [exact Hs|].
  destruct (future (tok s)); [destruct (uniformBlock s); exact Hs|].
  pose proof (scan_body_inv vertex s Hs) as H.
  destruct (scan_body vertex s); simpl in *; auto.
Qed.

Lemma parse_inv t tokens vertex :
  Q (shaderStruct t) -> Q (shaderStruct (res_tool (parse t tokens vertex))).
Proof.
  intros H. exact (scan_loop_inv (S (length tokens)) vertex
                     (mkScan t false empty_block (mkCursor [] tokens)) H).
Qed.

End ScanInvariant.


(** Parsing a stage only appends: the name and filename are unchanged and
    every list of the interface model (the uniform blocks and the four
    variable lists) keeps its entries as a prefix. *)
Lemma parse_only_appends (t : Tool) (tokens : list string) (vertex : bool) :
  struct_extends (shaderStruct t) (shaderStruct (res_tool (parse t tokens vertex))).
Proof.
  apply (parse_inv (struct_extends (shaderStruct t))).
  - intros b ss (H1 & H2 & [l Hl] & H4). destruct ss as [n f u ub a v o]; cbn in *.
    split; [exact H1|]. split; [exact H2|]. split.
    + exists (l ++ [b])%list. rewrite Hl, app_assoc. reflexivity.
    + intros tg. destruct (H4 tg) as [l' Hl']. exists l'. destruct tg; exact Hl'.
  - intros tg var ss (H1 & H2 & H3 & H4) _. split; [destruct ss, tg; exact H1|].
    split; [destruct ss, tg; exact H2|]. split; [destruct ss, tg; exact H3|].
    intros tg'. rewrite target_list_set. destruct (Target_eqb tg tg') eqn:E.
    + destruct (H4 tg) as [l Hl]. exists (l ++ [var])%list. rewrite Hl, app_assoc.
      destruct tg, tg'; try discriminate; reflexivity.
    + apply H4.
  - split; [reflexivity|]. split; [reflexivity|]. split; [exists []; rewrite app_nil_r; reflexivity|].
    intros tg; exists []; rewrite app_nil_r; reflexivity.
Qed.


(** ** Precision qualifiers: theorems *)

Lemma bind_ok {A B} (m : M A) (k : A -> M B) (s : Scan) (a : A) (s' : Scan) :
  m s = ROk a s' -> bind m k s = k a s'.
Proof. intros H. unfold bind. rewrite H. reflexivity. Qed.

Lemma next_cons (s : Scan) (x : string) (r : list string) :
  future (tok s) = x :: r ->
  next s = ROk x (set_tok (mkCursor (x :: past (tok s)) r) s).
Proof. intros H. unfold next. rewrite H. reflexivity. Qed.

Lemma hasNext_cons (s : Scan) (x : string) (r : list string) :
  future (tok s) = x :: r -> hasNext s = ROk true s.
Proof. intros H. unfold hasNext, gets. rewrite H. reflexivity. Qed.

Lemma skip_precision_skips (ps : list string) : forall (fuel : nat) (t ty : string) (rest : list string) (s : Scan),
  is_precision t = true -> Forall (fun p => is_precision p = true) ps -> is_precision ty = false ->
  future (tok s) = (ps ++ ty :: rest)%list -> (length ps < fuel)%nat ->
  exists s', skip_precision fuel t s = ROk ty s' /\
    tool s' = tool s /\ uniformBlock s' = uniformBlock s /\ future (tok s') = rest.
Proof.
  induction ps as [|p ps IH]; intros fuel t ty rest s Ht Hps Hty Hf Hl;
    (destruct fuel as [|f]; [cbn in Hl; lia|]); cbn [skip_precision]; rewrite Ht; cbn [negb].
  - cbn in Hf. rewrite (bind_ok _ _ _ _ _ (hasNext_cons s _ _ Hf)). cbn [negb].
    rewrite (bind_ok _ _ _ _ _ (next_cons s _ _ Hf)).
    destruct f; cbn [skip_precision]; rewrite Hty; cbn [negb].
    all: eexists; split; [reflexivity|]; cbn; auto.
  - inversion Hps as [|? ? Hp Hps']; subst. cbn in Hf, Hl.
    rewrite (bind_ok _ _ _ _ _ (hasNext_cons s _ _ Hf)). cbn [negb].
    rewrite (bind_ok _ _ _ _ _ (next_cons s _ _ Hf)).
    destruct (IH f p ty rest (set_tok (mkCursor (p :: past (tok s)) (ps ++ ty :: rest)) s)
                Hp Hps' Hty eq_refl ltac:(lia)) as (s' & E & E1 & E2 & E3).
    exists s'. split; [exact E|]. auto.
Qed.

Lemma hasNext_nonempty (s : Scan) : future (tok s) <> [] -> hasNext s = ROk true s.
Proof. intros H. unfold hasNext, gets. destruct (future (tok s)); [congruence|reflexivity]. Qed.

(** Precision qualifiers ([highp], [mediump], [lowp], [precision]) between
    the marker and the type are skipped: the declaration is appended to its
    list with the same variable as without them. *)
Lemma precision_qualifiers_skipped (vertex : bool) (s : Scan) (pre : list string) (ty name : string)
    (t : VarType) (rest : list string) (marker : string) (tg : Target) :
  uniformBlock s = false ->
  getType_from cTypes ty = Some t -> is_precision ty = false ->
  Forall (fun p => is_precision p = true) pre -> name <> "{" ->
  hd_error rest <> Some "[" ->
  future (tok s) = (marker :: pre ++ ty :: name :: rest)%list ->
  (forall s1, select_target vertex marker s1 = ROk (Some tg) s1) ->
  has_name name (target_list tg (shaderStruct (tool s))) = false ->
  exists s', scan_body vertex s = ROk tt s' /\
    shaderStruct (tool s') =
      set_target_list tg (target_list tg (shaderStruct (tool s)) ++ [mkVariable t name 0])%list
        (shaderStruct (tool s)).
Proof.
  intros Hub Hty Hp Hpre Hn Hr Hf Hsel Hh.
  destruct pre as [|p ps].
  - exact (declaration_routed vertex s ty name t rest marker tg Hub Hty Hp Hn Hr Hf Hsel Hh).
  - inversion Hpre as [|? ? Hp0 Hps]; subst.
    unfold scan_body.
    rewrite (bind_ok _ _ _ _ _ (next_cons s _ _ Hf)).
    set (s1 := set_tok _ s).
    rewrite (bind_ok _ _ _ _ _ (Hsel s1)).
    unfold scan_declaration.
    rewrite (bind_ok (gets uniformBlock) _ s1 false s1) by (unfold gets; cbn; rewrite Hub; reflexivity).
    cbn [negb andb].
    rewrite (bind_ok _ _ _ _ _ (hasNext_cons s1 p (ps ++ ty :: name :: rest) eq_refl)). cbn [negb].
    rewrite (bind_ok _ _ _ _ _ (next_cons s1 p (ps ++ ty :: name :: rest) eq_refl)).
    set (s2 := set_tok _ s1).
    assert (Hf2 : future (tok s2) = (ps ++ ty :: name :: rest)%list) by reflexivity.
    rewrite (bind_ok _ _ _ _ _ (hasNext_nonempty s2 ltac:(rewrite Hf2; destruct ps; discriminate))).
    cbn [negb].
    destruct (skip_precision_skips ps (length (future (tok s2))) p ty (name :: rest) s2
                Hp0 Hps Hp Hf2 ltac:(rewrite Hf2, length_app; cbn; lia)) as (s3 & E & E1 & E2 & E3).
    rewrite (bind_ok (fun s0 => skip_precision (length (future (tok s0))) p s0) _ s2 ty s3 E).
    rewrite (bind_ok _ _ _ _ _ (next_cons s3 _ _ E3)).
    rewrite (proj2 (String.eqb_neq _ _) Hn).
    unfold getType. rewrite Hty.
    assert (Hub3 : uniformBlock s3 = false) by (rewrite E2; exact Hub).
    assert (Ht3 : tool s3 = tool s) by (rewrite E1; reflexivity).
    unfold bind at 1, ret.
    destruct rest as [|r0 rest'].
    + unfold parse_array_size, peekNext, add_variable, record_seen, bind, modify, gets; cbn.
      rewrite Hub3. cbv beta. unfold set_tool, set_tok; cbn [tool shaderStruct].
      rewrite Ht3. cbn. rewrite Hh. cbn. eexists; split; reflexivity.
    + assert (Er : String.eqb r0 "[" = false).
      { apply String.eqb_neq. intros ->. apply Hr. reflexivity. }
      unfold parse_array_size, peekNext, add_variable, record_seen, bind, modify, gets, ret, set_tok; cbn.
      rewrite Er. rewrite Hub3. cbv beta. unfold set_tool, set_tok; cbn [tool shaderStruct].
      rewrite Ht3. cbn. rewrite Hh. cbn. eexists; split; reflexivity.
Qed.

(** ** Stage driver: theorems *)

(** The Layout record is not reset between stages: a layout qualifier left
    pending at the end of the fragment stage is the layout recorded for the
    first declaration of the vertex stage. *)
Lemma stage_layout_carried_over (sf : string) (fr : list string) (t1 : Tool) (ty name : string) (tyE : VarType) :
  run_stage (Some (fresh_tool sf)) fr false = Some t1 ->
  getType_from cTypes ty = Some tyE -> is_precision ty = false -> name <> "{" ->
  exists t, parse_stages sf fr None None ["$in"; ty; name; ";"] = Some t /\
    seen t = (seen t1 ++ [(name, layout t1)])%list.
Proof.
  intros H1 Hty Hp Hn. unfold parse_stages. rewrite H1. cbn [run_stage].
  pose proof (proj2 (String.eqb_neq _ _) Hn) as Hn'.
  unfold parse. cbn [length scan_loop future tok].
  unfold scan_body, select_target, scan_declaration, getType,
    parse_array_size, peekNext, add_variable, record_seen, modify_struct, modify_layout.
  unfold bind, next, gets, hasNext, modify, ret, continue, return_.
  cbn - [getType_from has_name is_precision].
  rewrite Hp. cbn - [getType_from has_name is_precision].
  rewrite Hn'. cbn - [getType_from has_name is_precision].
  rewrite Hty. cbn - [getType_from has_name is_precision].
  destruct (has_name name (attributes (shaderStruct t1))); cbn;
    eexists; split; reflexivity.
Qed.

Lemma struct_extends_refl ss : struct_extends ss ss.
Proof.
  split; [reflexivity|]. split; [reflexivity|].
  split; [exists []; rewrite app_nil_r; reflexivity|].
  intros tg; exists []; rewrite app_nil_r; reflexivity.
Qed.

Lemma struct_extends_trans a b c :
  struct_extends a b -> struct_extends b c -> struct_extends a c.
Proof.
  intros (A1 & A2 & [la A3] & A4) (B1 & B2 & [lb B3] & B4).
  split; [congruence|]. split; [congruence|].
  split; [exists (la ++ lb)%list; rewrite B3, A3, app_assoc; reflexivity|].
  intros tg. destruct (A4 tg) as [l1 E1], (B4 tg) as [l2 E2].
  exists (l1 ++ l2)%list. rewrite E2, E1, app_assoc. reflexivity.
Qed.

Lemma run_stage_some t tokens v t' :
  run_stage (Some t) tokens v = Some t' ->
  struct_extends (shaderStruct t) (shaderStruct t') /\
  (names_unique (shaderStruct t) -> names_unique (shaderStruct t')).
Proof.
  unfold run_stage. intros H.
  assert (E : t' = res_tool (parse t tokens v)).
  { destruct (parse t tokens v); try discriminate H; injection H as <-; reflexivity. }
  subst t'. split; [apply parse_only_appends|].
  intros Hu. exact (scan_loop_unique (S (length tokens)) v
                      (mkScan t false empty_block (mkCursor [] tokens)) Hu).
Qed.

Lemma run_stage_none tokens v : run_stage None tokens v = None.
Proof. reflexivity. Qed.

(** After all stages of [onRunning] have been parsed without an abort, no
    top-level list holds two variables with the same name, the name and
    filename are the shader file's, and the model extends the one the
    fragment stage produced. *)
Lemma stages_keep_model (sf : string) (fr : list string) (ge co : option (list string))
    (vx : list string) (t : Tool) :
  parse_stages sf fr ge co vx = Some t ->
  names_unique (shaderStruct t) /\
  structName (shaderStruct t) = sf /\ structFilename (shaderStruct t) = sf /\
  exists t1, run_stage (Some (fresh_tool sf)) fr false = Some t1 /\
    struct_extends (shaderStruct t1) (shaderStruct t).
Proof.
  unfold parse_stages.
  destruct (run_stage (Some (fresh_tool sf)) fr false) as [t1|] eqn:E1;
    [|destruct ge, co; intros H; discriminate H].
  destruct (run_stage_some _ _ _ _ E1) as [X1 U1].
  assert (G : (exists t2, (match ge with Some g => run_stage (Some t1) g false | None => Some t1 end) = Some t2 /\
              struct_extends (shaderStruct t1) (shaderStruct t2) /\
              (names_unique (shaderStruct t1) -> names_unique (shaderStruct t2))) \/
              (match ge with Some g => run_stage (Some t1) g false | None => Some t1 end) = None).
  { destruct ge as [g|]; [|left; exists t1; split; [reflexivity|split; [apply struct_extends_refl|auto]]].
    destruct (run_stage (Some t1) g false) as [t2|] eqn:E2; [|right; reflexivity].
    left. exists t2. split; [reflexivity|]. apply (run_stage_some _ _ _ _ E2). }
  destruct G as [(t2 & E2 & X2 & U2)|E2]; rewrite E2;
    [|destruct co; intros H; discriminate H].
  assert (C : (exists t3, (match co with Some c => run_stage (Some t2) c false | None => Some t2 end) = Some t3 /\
              struct_extends (shaderStruct t2) (shaderStruct t3) /\
              (names_unique (shaderStruct t2) -> names_unique (shaderStruct t3))) \/
              (match co with Some c => run_stage (Some t2) c false | None => Some t2 end) = None).
  { destruct co as [c|]; [|left; exists t2; split; [reflexivity|split; [apply struct_extends_refl|auto]]].
    destruct (run_stage (Some t2) c false) as [t3|] eqn:E3; [|right; reflexivity].
    left. exists t3. split; [reflexivity|]. apply (run_stage_some _ _ _ _ E3). }
  destruct C as [(t3 & E3 & X3 & U3)|E3]; rewrite E3; [|intros H; discriminate H].
  intros H4. destruct (run_stage_some _ _ _ _ H4) as [X4 U4].
  assert (X : struct_extends (shaderStruct t1) (shaderStruct t))
    by (eapply struct_extends_trans; [exact X2|]; eapply struct_extends_trans; [exact X3|exact X4]).
  assert (X0 : struct_extends (shaderStruct (fresh_tool sf)) (shaderStruct t))
    by (eapply struct_extends_trans; [exact X1|exact X]).
  split; [apply U4, U3, U2, U1, names_unique_empty|].
  destruct X0 as (N1 & N2 & _). split; [exact N1|]. split; [exact N2|].
  exists t1. auto.
Qed.

(** The exit code after validation is the first nonzero code in the order
    fragment, vertex, geometry, compute (a stage not validated counts as
    0); if all are 0 the earlier exit code is kept. *)
Lemma validation_exit_first_failure (exitCode fr vx : Z) (ge co : option Z) :
  (Forall (fun c => c = 0) (stage_codes fr vx ge co) ->
   validation_exit_code exitCode fr vx ge co = exitCode) /\
  (forall pre c post, stage_codes fr vx ge co = (pre ++ c :: post)%list ->
   Forall (fun c => c = 0) pre -> c <> 0 ->
   validation_exit_code exitCode fr vx ge co = c).
Proof.
  unfold validation_exit_code, stage_codes.
  set (g := match ge with Some c => c | None => 0 end).
  set (k := match co with Some c => c | None => 0 end).
  clearbody g k. split.
  - intros H. inversion H as [|? ? H1 H']; subst. inversion H' as [|? ? H2 H'']; subst.
    inversion H'' as [|? ? H3 H''']; subst. inversion H''' as [|? ? H4 _]; subst. reflexivity.
  - intros pre c post E Hpre Hc.
    destruct pre as [|a pre]; cbn in E; injection E as E1 E2; subst.
    { rewrite (proj2 (Z.eqb_neq _ _) Hc). reflexivity. }
    inversion Hpre as [|? ? Ha Hpre']; subst. cbn.
    destruct pre as [|b pre]; cbn in E2; injection E2 as E3 E4; subst.
    { rewrite (proj2 (Z.eqb_neq _ _) Hc). reflexivity. }
    inversion Hpre' as [|? ? Hb Hpre'']; subst. cbn.
    destruct pre as [|d pre]; cbn in E4; injection E4 as E5 E6; subst.
    { rewrite (proj2 (Z.eqb_neq _ _) Hc). reflexivity. }
    inversion Hpre'' as [|? ? Hd Hpre''']; subst. cbn.
    destruct pre as [|e pre]; cbn in E6; injection E6 as E7 E8; subst.
    { rewrite (proj2 (Z.eqb_neq _ _) Hc). reflexivity. }
    destruct pre; discriminate.
Qed.

(** ** Uniform block structure: theorems *)

Lemma data_app_assoc (a b c : string) : (a ++ b) ++ c = a ++ b ++ c.
Proof. induction a; cbn; congruence. Qed.

Lemma data_app_nil_r (a : string) : a ++ "" = a.
Proof. induction a; cbn; congruence. Qed.

Lemma typePadding_aligned bl v p : typePadding bl v p = ("", p).
Proof. destruct bl; reflexivity. Qed.

Lemma to_size_t_add_idem (a b : Z) : to_size_t (to_size_t a + b) = to_size_t (a + b).
Proof. unfold to_size_t. apply Z.add_mod_idemp_l. lia. Qed.

Lemma data_members_sum convertName bl ms : forall ub sz, 0 <= sz < 2 ^ 64 ->
  data_members convertName bl ms ub sz 0 =
    (ub ++ fold_right (fun v acc => member_line convertName bl v ++ acc) "" ms,
     to_size_t (sz + fold_right Z.add 0 (map (typeSize bl) ms)), 0).
Proof.
  induction ms as [|v ms IH]; intros ub sz Hsz; cbn [data_members].
  - cbn [fold_right map]. rewrite data_app_nil_r, Z.add_0_r.
    unfold to_size_t. rewrite Z.mod_small by exact Hsz. reflexivity.
  - rewrite typePadding_aligned. cbv zeta. rewrite IH.
    2: { unfold to_size_t. apply Z.mod_pos_bound. lia. }
    rewrite to_size_t_add_idem. cbn [fold_right map]. rewrite Z.add_assoc. f_equal. f_equal.
    unfold member_line. rewrite data_app_nil_r.
    destruct (0 <? arraySize v); rewrite ?data_app_nil_r; rewrite !data_app_assoc; reflexivity.
Qed.

(** The [struct Data] of a uniform block has one line per member and no
    padding field, and its [static_assert] states as size the sum of the
    members' [typeSize] modulo 2^64. *)
Theorem data_struct_no_padding_sum convertName bl ms :
  data_struct convertName bl ms =
    (TAB ++ "#pragma pack(push, 1)" ++ NL ++ TAB ++ "struct Data {" ++ NL
     ++ fold_right (fun v acc => member_line convertName bl v ++ acc) "" ms
     ++ TAB ++ "};" ++ NL ++ TAB ++ "#pragma pack(pop)" ++ NL
     ++ TAB ++ "static_assert(sizeof(Data) == "
     ++ Z_to_string (to_size_t (fold_right Z.add 0 (map (typeSize bl) ms))) ++ ", "
     ++ QUOTE ++ "Unexpected structure size for Data" ++ QUOTE ++ ");" ++ NL,
     to_size_t (fold_right Z.add 0 (map (typeSize bl) ms))).
Proof.
  unfold data_struct. rewrite data_members_sum by lia. cbn [Z.add]. reflexivity.
Qed.

(** ** Witnesses of the theorems above *)

Lemma uniformSetterPostfix_by_components_witness :
  2 <= getComponents VEC3 /\ getComponents VEC3 = getComponents IVEC3 /\
  uniformSetterPostfix VEC3 4 = uniformSetterPostfix IVEC3 4.
Proof.
  assert (H : 2 <= getComponents VEC3) by (vm_compute; discriminate).
  split; [exact H|]. split; [reflexivity|].
  exact (uniformSetterPostfix_by_components VEC3 IVEC3 4 H eq_refl).
Defined.

Lemma parseLayout_applies_qualifiers_witness :
  exists s', parseLayout (routing_scan ["("; "std430"; ","; "binding"; "="; "2"; ")"; "uniform"]) = ROk true s' /\
    blockLayout (layout (tool s')) = std430 /\ binding (layout (tool s')) = 2 /\
    future (tok s') = ["uniform"].
Proof.
  destruct (proj1 (parseLayout_applies_qualifiers [QFlag "std430"; QIgnored ","; QAssign "binding" "2"] ["uniform"]
                     (routing_scan ["("; "std430"; ","; "binding"; "="; "2"; ")"; "uniform"]) eq_refl) eq_refl)
    as (s' & E & L & _ & F).
  exists s'. split; [exact E|]. rewrite L. split; [reflexivity|]. split; [reflexivity|exact F].
Defined.

Lemma precision_qualifiers_skipped_witness :
  exists s', scan_body false (routing_scan ["uniform"; "highp"; "float"; "a"; ";"]) = ROk tt s' /\
    uniforms (shaderStruct (tool s')) = [mkVariable FLOAT "a" 0].
Proof.
  destruct (precision_qualifiers_skipped false (routing_scan ["uniform"; "highp"; "float"; "a"; ";"])
              ["highp"] "float" "a" FLOAT [";"] "uniform" TUniforms eq_refl eq_refl eq_refl
              (Forall_cons "highp" (eq_refl : is_precision "highp" = true) (Forall_nil _)) ltac:(discriminate) ltac:(discriminate) eq_refl
              (fun s1 => eq_refl) eq_refl) as (s' & E & S).
  exists s'. split; [exact E|]. rewrite S. reflexivity.
Defined.

Lemma stage_layout_carried_over_witness :
  exists t, parse_stages "s" ["layout"; "("; "location"; "="; "3"; ")"] None None ["$in"; "vec4"; "a"; ";"] = Some t /\
    seen t = [("a", set_location 3 Layout_default)].
Proof.
  destruct (stage_layout_carried_over "s" ["layout"; "("; "location"; "="; "3"; ")"]
              (res_tool (parse (fresh_tool "s") ["layout"; "("; "location"; "="; "3"; ")"] false))
              "vec4" "a" VEC4 eq_refl eq_refl eq_refl ltac:(discriminate)) as (t & E & S).
  exists t. split; [exact E|]. rewrite S. reflexivity.
Defined.

Lemma stages_keep_model_witness :
  exists t, parse_stages "s" ["uniform"; "float"; "a"; ";"; "uniform"; "float"; "a"; ";"] None None
              ["$in"; "vec4"; "p"; ";"] = Some t /\
    names_unique (shaderStruct t) /\ structName (shaderStruct t) = "s".
Proof.
  destruct (parse_stages "s" ["uniform"; "float"; "a"; ";"; "uniform"; "float"; "a"; ";"] None None
              ["$in"; "vec4"; "p"; ";"]) as [t|] eqn:E.
  - exists t. destruct (stages_keep_model _ _ _ _ _ t E) as (U & N & _). auto.
  - vm_compute in E. discriminate E.
Defined.

(** ** Layout qualifiers before a declaration *)

Section LayoutFrame.
Variable u : bool.
Variable b : UniformBlock.
Variable sn : list (string * Layout).

Lemma next_frame : pres (frame u b sn) next.
Proof. intros s Hs; unfold next; destruct (future (tok s)); exact Hs. Qed.

Lemma modify_layout_frame g : pres (frame u b sn) (modify_layout g).
Proof. apply modify_pres; intros s Hs; exact Hs. Qed.

Lemma assert_frame c : pres (frame u b sn) (core_assert_always c).
Proof. unfold core_assert_always; destruct c; intros s Hs; exact Hs. Qed.

#[local] Hint Resolve next_frame modify_layout_frame assert_frame : pres.

Lemma layout_loop_frame fuel : pres (frame u b sn) (layout_loop fuel).
Proof. induction fuel as [|f IH]; simpl; [apply ret_pres|]. pres_tac. Qed.

Lemma parseLayout_frame : pres (frame u b sn) parseLayout.
Proof. unfold parseLayout. pres_tac. intros s Hs. apply layout_loop_frame; exact Hs. Qed.

End LayoutFrame.

Lemma parseLayout_group (qs : list Qual) (rest : list string) (s : Scan) :
  forallb qual_ok qs = true ->
  future (tok s) = "(" :: flat_map qual_tokens qs ++ ")" :: rest ->
  exists s', parseLayout s = ROk true s' /\
    layout (tool s') = fold_left qual_apply qs (layout (tool s)) /\
    shaderStruct (tool s') = shaderStruct (tool s) /\ future (tok s') = rest /\
    uniformBlock s' = uniformBlock s /\ block s' = block s /\ seen (tool s') = seen (tool s).
Proof.
  intros Hok Hf.
  destruct (parseLayout_closed qs rest s Hok Hf) as (s' & E & L & S & F).
  exists s'. pose proof (parseLayout_frame (uniformBlock s) (block s) (seen (tool s)) s
                           (conj eq_refl (conj eq_refl eq_refl))) as Fr.
  rewrite E in Fr. destruct Fr as (U & B & N). auto 8.
Qed.

Lemma qual_apply_field (q : Qual) (f : LayoutField) (l : Layout) :
  qual_ok q = true ->
  field_value f (qual_apply l q) =
    match qual_write q with
    | Some (f', v) => if field_eqb f f' then v else field_value f l
    | None => field_value f l
    end.
Proof.
  destruct q as [k|k v|k]; cbn [qual_ok qual_apply qual_write]; unfold layout_key, key_write;
    repeat match goal with |- context [String.eqb ?a ?b] => destruct (String.eqb a b) end;
    intros H; try discriminate H; destruct f; reflexivity.
Qed.

Lemma layout_fields_last_writer (qs : list Qual) (f : LayoutField) : forall (l : Layout),
  forallb qual_ok qs = true ->
  field_value f (fold_left qual_apply qs l) = field_after qs f (field_value f l).
Proof.
  unfold field_after.
  induction qs as [|q qs IH]; intros l H; [reflexivity|].
  cbn in H. apply andb_prop in H as [Hq H]. cbn [fold_left].
  rewrite IH by exact H. rewrite qual_apply_field by exact Hq. reflexivity.
Qed.


Lemma reaches_refl vertex s : reaches vertex s s.
Proof. exists 0%nat. reflexivity. Qed.

Lemma reaches_trans vertex s1 s2 s3 :
  reaches vertex s1 s2 -> reaches vertex s2 s3 -> reaches vertex s1 s3.
Proof.
  intros [n1 H1] [n2 H2]. exists (n1 + n2)%nat. intros f.
  rewrite <- Nat.add_assoc, H1. apply H2.
Qed.

Lemma reaches_step vertex s s' :
  future (tok s) <> [] ->
  (scan_body vertex s = ROk tt s' \/ scan_body vertex s = RCont s') ->
  reaches vertex s s'.
Proof.
  intros Hf Hb. exists 1%nat. intros f. cbn [Nat.add scan_loop].
  destruct (future (tok s)); [congruence|].
  destruct Hb as [E|E]; rewrite E; reflexivity.
Qed.

Lemma layout_group_round vertex s qs rest :
  uniformBlock s = false -> forallb qual_ok qs = true ->
  future (tok s) = (layout_group qs ++ rest)%list ->
  exists s', scan_body vertex s = RCont s' /\
    layout (tool s') = fold_left qual_apply qs (layout (tool s)) /\
    shaderStruct (tool s') = shaderStruct (tool s) /\ seen (tool s') = seen (tool s) /\
    uniformBlock s' = false /\ future (tok s') = rest.
Proof.
  intros Hub Hok Hf.
  assert (Hf' : future (tok s) = "layout" :: "(" :: flat_map qual_tokens qs ++ ")" :: rest).
  { rewrite Hf. unfold layout_group. cbn. rewrite <- app_assoc. reflexivity. }
  unfold scan_body. rewrite (bind_ok _ _ _ _ _ (next_cons s _ _ Hf')).
  set (s1 := set_tok _ s).
  destruct (parseLayout_group qs rest s1 Hok eq_refl) as (s2 & E & L & S & F & U & _ & N).
  change (select_target vertex "layout") with (bind parseLayout (fun _ : bool => ret (@None Target))).
  rewrite (bind_ok (bind parseLayout (fun _ : bool => ret (@None Target))) _ s1 None s2)
    by (rewrite (bind_ok _ _ _ _ _ E); reflexivity).
  unfold scan_declaration, bind, gets, continue. rewrite U. cbn [uniformBlock s1 set_tok]. rewrite Hub.
  cbn. exists s2. split; [reflexivity|]. split; [exact L|]. split; [exact S|]. split; [exact N|]. split; [rewrite U; exact Hub|exact F].
Qed.

Lemma layout_groups_reach vertex (qss : list (list Qual)) : forall s rest,
  uniformBlock s = false -> Forall (fun qs => forallb qual_ok qs = true) qss ->
  future (tok s) = (flat_map layout_group qss ++ rest)%list ->
  exists s', reaches vertex s s' /\
    layout (tool s') = fold_left qual_apply (concat qss) (layout (tool s)) /\
    shaderStruct (tool s') = shaderStruct (tool s) /\ seen (tool s') = seen (tool s) /\
    uniformBlock s' = false /\ future (tok s') = rest.
Proof.
  induction qss as [|qs qss IH]; intros s rest Hub Hok Hf.
  - exists s. split; [apply reaches_refl|]. auto.
  - inversion Hok as [|? ? Hq Hok']; subst.
    cbn [flat_map] in Hf. rewrite <- app_assoc in Hf.
    destruct (layout_group_round vertex s qs _ Hub Hq Hf) as (s1 & E & L & S & N & U & F).
    destruct (IH s1 rest U Hok' F) as (s2 & R & L2 & S2 & N2 & U2 & F2).
    exists s2. split.
    + apply (reaches_trans _ _ s1); [|exact R].
      apply reaches_step; [rewrite Hf; discriminate|right; exact E].
    + cbn [concat]. rewrite fold_left_app, <- L, L2.
      split; [reflexivity|]. split; [congruence|]. split; [congruence|]. auto.
Qed.

Lemma declaration_round (vertex : bool) (s : Scan) (ty name : string) (t : VarType)
    (rest : list string) (marker : string) (tg : Target) :
  uniformBlock s = false ->
  getType_from cTypes ty = Some t -> is_precision ty = false -> name <> "{" ->
  hd_error rest <> Some "[" ->
  future (tok s) = marker :: ty :: name :: rest ->
  (forall s1, select_target vertex marker s1 = ROk (Some tg) s1) ->
  has_name name (target_list tg (shaderStruct (tool s))) = false ->
  exists s', scan_body vertex s = ROk tt s' /\
    seen (tool s') = (seen (tool s) ++ [(name, layout (tool s))])%list /\
    layout (tool s') = Layout_default /\
    shaderStruct (tool s') =
      set_target_list tg (target_list tg (shaderStruct (tool s)) ++ [mkVariable t name 0])%list
        (shaderStruct (tool s)).
Proof.
  intros Hub Hty Hp Hn Hr Hf Hsel Hh.
  unfold scan_body, bind at 1, next. rewrite Hf. cbn [future tok set_tok].
  unfold bind at 1. rewrite Hsel.
  unfold scan_declaration, bind, gets, hasNext, next; cbn.
  rewrite Hp. cbn.
  rewrite (proj2 (String.eqb_neq _ _) Hn).
  unfold getType. rewrite Hty. cbn.
  destruct rest as [|r0 rest']; cbn.
  - unfold add_variable, record_seen, bind, modify, gets; cbn.
    rewrite Hub. cbv beta. unfold set_tool, set_tok; cbn [tool shaderStruct].
    rewrite Hh. cbn. eexists; split; [reflexivity|]. split; [|split]; reflexivity.
  - assert (E : String.eqb r0 "[" = false).
    { apply String.eqb_neq. intros ->. apply Hr. reflexivity. }
    rewrite E. unfold add_variable, record_seen, bind, modify, gets; cbn.
    rewrite Hub. cbv beta. unfold set_tok, set_tool; cbn [tool shaderStruct].
    rewrite Hh. cbn. eexists; split; [reflexivity|]. split; [|split]; reflexivity.
Qed.

Lemma getType_not_keyword (ty : string) (t : VarType) :
  getType_from cTypes ty = Some t ->
  String.eqb ty "$in" = false /\ String.eqb ty "$out" = false /\
  String.eqb ty "layout" = false /\ String.eqb ty "buffer" = false /\
  String.eqb ty "uniform" = false /\ String.eqb ty "}" = false.
Proof.
  intros H. destruct (getType_from_sound _ _ _ H) as (r & Hin & <- & _).
  repeat (destruct Hin as [<-|Hin]; [cbn; auto 7|]). destruct Hin.
Qed.

Lemma member_declaration (s : Scan) (ty name n : string) (t : VarType) (rest : list string) :
  uniformBlock s = true ->
  getType_from cTypes ty = Some t -> is_precision ty = false -> name <> "{" ->
  future (tok s) = ty :: name :: "[" :: n :: "]" :: ";" :: rest ->
  exists s', scan_declaration None s = ROk tt s' /\
    layout (tool s') = layout (tool s) /\
    seen (tool s') = (seen (tool s) ++ [(name, layout (tool s))])%list /\
    shaderStruct (tool s') = shaderStruct (tool s) /\
    uniformBlock s' = true /\
    members (block s') =
      (members (block s) ++ [mkVariable t name (if toInt n =? 0 then -1 else toInt n)])%list /\
    future (tok s') = rest.
Proof.
  intros Hub Hty Hp Hn Hf.
  unfold scan_declaration, bind, gets, hasNext, next. rewrite Hub. cbn. repeat (rewrite Hf; cbn).
  rewrite Hp. cbn.
  rewrite (proj2 (String.eqb_neq _ _) Hn).
  unfold getType. rewrite Hty. cbn.
  unfold add_variable, record_seen, bind, modify, gets; cbn.
  rewrite Hub. cbn. eexists; split; [reflexivity|]. cbn. auto 8.
Qed.

Lemma member_round (vertex : bool) (s : Scan) (ty name n : string) (t : VarType) (rest : list string) :
  uniformBlock s = true ->
  getType_from cTypes ty = Some t -> is_precision ty = false -> name <> "{" ->
  future (tok s) = ty :: name :: "[" :: n :: "]" :: ";" :: rest ->
  exists s', scan_body vertex s = ROk tt s' /\
    layout (tool s') = layout (tool s) /\
    seen (tool s') = (seen (tool s) ++ [(name, layout (tool s))])%list /\
    shaderStruct (tool s') = shaderStruct (tool s) /\
    uniformBlock s' = true /\
    members (block s') =
      (members (block s) ++ [mkVariable t name (if toInt n =? 0 then -1 else toInt n)])%list /\
    future (tok s') = rest.
Proof.
  intros Hub Hty Hp Hn Hf.
  destruct (getType_not_keyword ty t Hty) as (K1 & K2 & K3 & K4 & K5 & K6).
  unfold scan_body. rewrite (bind_ok _ _ _ _ _ (next_cons s _ _ Hf)).
  set (s1 := set_tok _ s).
  set (s2 := set_tok (mkCursor (past (tok s)) (ty :: name :: "[" :: n :: "]" :: ";" :: rest)) s1).
  assert (Sel : select_target vertex ty s1 = ROk None s2).
  { unfold select_target. rewrite K1, K2, K3, K4, K5.
    unfold bind, gets. cbn [s1 set_tok uniformBlock]. rewrite Hub, K6. reflexivity. }
  rewrite (bind_ok _ _ _ _ _ Sel).
  exact (member_declaration s2 ty name n t rest Hub Hty Hp Hn eq_refl).
Qed.

Lemma member_round_qualified (vertex : bool) (s : Scan) (qs : list Qual) (ty name n : string)
    (t : VarType) (rest : list string) :
  uniformBlock s = true -> forallb qual_ok qs = true ->
  getType_from cTypes ty = Some t -> is_precision ty = false -> name <> "{" ->
  future (tok s) = (layout_group qs ++ ty :: name :: "[" :: n :: "]" :: ";" :: rest)%list ->
  exists s', scan_body vertex s = ROk tt s' /\
    layout (tool s') = fold_left qual_apply qs (layout (tool s)) /\
    seen (tool s') = (seen (tool s) ++ [(name, fold_left qual_apply qs (layout (tool s)))])%list /\
    shaderStruct (tool s') = shaderStruct (tool s) /\
    uniformBlock s' = true /\
    members (block s') =
      (members (block s) ++ [mkVariable t name (if toInt n =? 0 then -1 else toInt n)])%list /\
    future (tok s') = rest.
Proof.
  intros Hub Hok Hty Hp Hn Hf.
  set (tl := ty :: name :: "[" :: n :: "]" :: ";" :: rest).
  assert (Hf' : future (tok s) = "layout" :: "(" :: flat_map qual_tokens qs ++ ")" :: tl).
  { rewrite Hf. unfold layout_group. cbn. rewrite <- app_assoc. reflexivity. }
  unfold scan_body. rewrite (bind_ok _ _ _ _ _ (next_cons s _ _ Hf')).
  set (s1 := set_tok _ s).
  destruct (parseLayout_group qs tl s1 Hok eq_refl) as (s2 & E & L & S & F & U & B & N).
  change (select_target vertex "layout") with (bind parseLayout (fun _ : bool => ret (@None Target))).
  rewrite (bind_ok (bind parseLayout (fun _ : bool => ret (@None Target))) _ s1 None s2)
    by (rewrite (bind_ok _ _ _ _ _ E); reflexivity).
  destruct (member_declaration s2 ty name n t rest ltac:(rewrite U; exact Hub) Hty Hp Hn F)
    as (s3 & E3 & L3 & N3 & S3 & U3 & M3 & F3).
  exists s3. split; [exact E3|].
  rewrite L3, N3, S3, M3, L, N, S, B. auto 8.
Qed.

Lemma close_round (vertex : bool) (s : Scan) (rest : list string) :
  uniformBlock s = true ->
  future (tok s) = "}" :: ";" :: rest ->
  exists s', scan_body vertex s = RCont s' /\
    layout (tool s') = Layout_default /\ uniformBlock s' = false /\
    shaderStruct (tool s') = push_uniformBlock (block s) (shaderStruct (tool s)) /\
    seen (tool s') = seen (tool s) /\ future (tok s') = rest.
Proof.
  intros Hub Hf.
  unfold scan_body, bind at 1, next. rewrite Hf. cbn [future tok set_tok].
  unfold select_target, close_block, scan_declaration, bind, gets, modify, modify_struct,
    modify_layout, next, core_assert_always, ret, continue. cbn. rewrite Hub. cbn.
  eexists; split; [reflexivity|]. cbn. auto 6.
Qed.

Lemma in_skipped_round (s : Scan) (rest : list string) :
  uniformBlock s = false -> future (tok s) = "$in" :: rest ->
  exists s', scan_body false s = RCont s' /\ tool s' = tool s /\ future (tok s') = rest.
Proof.
  intros Hub Hf. unfold scan_body, bind, next. rewrite Hf. cbn.
  unfold scan_declaration, bind, gets. cbn. rewrite Hub. cbn.
  eexists; split; [reflexivity|]. auto.
Qed.


Lemma qualified_declaration (vertex : bool) (s : Scan) (qss : list (list Qual)) (ty name : string)
    (t : VarType) (rest : list string) (marker : string) (tg : Target) :
  uniformBlock s = false -> Forall (fun qs => forallb qual_ok qs = true) qss ->
  getType_from cTypes ty = Some t -> is_precision ty = false -> name <> "{" ->
  hd_error rest <> Some "[" ->
  future (tok s) = (flat_map layout_group qss ++ marker :: ty :: name :: rest)%list ->
  (forall s1, select_target vertex marker s1 = ROk (Some tg) s1) ->
  has_name name (target_list tg (shaderStruct (tool s))) = false ->
  exists s', reaches vertex s s' /\
    seen (tool s') = (seen (tool s) ++ [(name, fold_left qual_apply (concat qss) (layout (tool s)))])%list /\
    layout (tool s') = Layout_default /\
    shaderStruct (tool s') =
      set_target_list tg (target_list tg (shaderStruct (tool s)) ++ [mkVariable t name 0])%list
        (shaderStruct (tool s)).
Proof.
  intros Hub Hok Hty Hp Hn Hr Hf Hsel Hh.
  destruct (layout_groups_reach vertex qss s _ Hub Hok Hf) as (s1 & R1 & L1 & S1 & N1 & U1 & F1).
  rewrite <- S1 in Hh.
  destruct (declaration_round vertex s1 ty name t rest marker tg U1 Hty Hp Hn Hr F1 Hsel Hh)
    as (s2 & E2 & N2 & L2 & S2).
  exists s2. split.
  - apply (reaches_trans _ _ s1); [exact R1|]. apply reaches_step; [rewrite F1; discriminate|left; exact E2].
  - rewrite N2, N1, L1, S2, S1. auto.
Qed.


(** C4 (code bug): the four top-level lists keep their names pairwise
    distinct, but the members of a uniform block are appended without a
    name check:
    (1) parsing any stage from a model whose top-level lists have distinct
    names keeps them distinct, and [uniform float a; uniform float a;]
    yields one [a];
    (2) in any state inside a block, a member [ty name[n];] whose name is
    already a member of the block is appended, and the member names of the
    block are no longer distinct;
    (3) [uniform B { float a[1]; float a[2]; };] parses successfully into a
    block with two members named [a]. *)
Theorem block_member_names_unchecked :
  (forall (t : Tool) (tokens : list string) (vertex : bool),
     names_unique (shaderStruct t) ->
     names_unique (shaderStruct (res_tool (parse t tokens vertex))))
  /\ uniforms (shaderStruct (res_tool
       (parse (fresh_tool "s") ["uniform"; "float"; "a"; ";"; "uniform"; "float"; "a"; ";"]
          false)))
     = [mkVariable FLOAT "a" 0]
  /\ (forall vertex s ty name n t rest,
       uniformBlock s = true ->
       getType_from cTypes ty = Some t -> is_precision ty = false -> name <> "{" ->
       future (tok s) = ty :: name :: "[" :: n :: "]" :: ";" :: rest ->
       In name (map vname (members (block s))) ->
       exists s', scan_body vertex s = ROk tt s' /\ uniformBlock s' = true /\
         ~ NoDup (map vname (members (block s'))))
  /\ (exists s, parse (fresh_tool "s") tokens_block_dup false = RRet true s)
  /\ exists b,
       In b (uniformBlocks (shaderStruct (res_tool (parse (fresh_tool "s") tokens_block_dup false))))
       /\ ~ NoDup (map vname (members b)).
Proof.
  split; [exact parse_keeps_names_unique|].
  split; [vm_compute; reflexivity|].
  split; [|exact block_members_may_share_a_name].
  intros vertex s ty name n t rest Hub Hty Hp Hn Hf Hin.
  destruct (member_round vertex s ty name n t rest Hub Hty Hp Hn Hf) as (s' & E & _ & _ & _ & U & M & _).
  exists s'. split; [exact E|]. split; [exact U|].
  rewrite M, map_app. cbn [map vname]. intros H.
  apply NoDup_remove_2 in H. rewrite app_nil_r in H. exact (H Hin).
Qed.
